(** * cache.js: an LRU cache with TTL expiry and a memory ceiling

    A shallow embedding of [src/index.ts] (class [Cache]) together with the
    small part of the JavaScript runtime the class talks to: the
    [setImmediate] queue, the [setTimeout] handles and the clock.

    Conventions of the embedding:
    - a JS [number] is an integer or [+Infinity] ([num]); [NaN], [-Infinity]
      and fractions are outside the model;
    - [Date.now()] is an argument [now] of every operation that reads the
      clock; one call of a public method reads one instant;
    - the [Map] of entries is an association list in insertion order, which
      is the iteration order of a JS [Map];
    - the red-black tree of [functional-red-black-tree] is used by the class
      only as an ordered map from timestamps to buckets; it is a list of
      nodes in ascending key order, [begin] being its head;
    - a JS [Set] of keys is a list in insertion order;
    - a timer handle is due [delay] milliseconds after [setTimeout], for
      the delay as the runtime normalises it: below 1 or above
      [2 ** 31 - 1] it becomes 1. *)

From Stdlib Require Import ZArith List String Bool Lia QArith Sorted.
Import ListNotations.
Open Scope Z_scope.

(** ** Numbers *)

Inductive num : Type :=
| Fin (z : Z)
| Infinity.

(** [a < b] *)
Definition num_ltb (a b : num) : bool :=
  match a, b with
  | Fin x, Fin y => x <? y
  | Fin _, Infinity => true
  | Infinity, _ => false
  end.

(** [a === b] *)
Definition num_eqb (a b : num) : bool :=
  match a, b with
  | Fin x, Fin y => x =? y
  | Infinity, Infinity => true
  | _, _ => false
  end.

(** [a + b] *)
Definition num_add (a b : num) : num :=
  match a, b with
  | Fin x, Fin y => Fin (x + y)
  | _, _ => Infinity
  end.

(** [1024 ** 2] *)
Definition toMegabytes : Z := 1024 ^ 2.

(** [maxMemoryInMb * 1024 ** 2] *)
Definition mb_to_bytes (mb : num) : num :=
  match mb with
  | Fin m => Fin (m * toMegabytes)
  | Infinity => Infinity
  end.






(** ** Values and the size estimator *)

(** What [measureSize] can see of a value. *)
Inductive JsValue : Type :=
| VBuffer (byteLength : N)          (* Buffer, ArrayBuffer or a typed view *)
| VString (utf8 : string)           (* a string, as its UTF-8 bytes *)
| VNumber (n : Z)
| VBoolean (b : bool)
| VBigInt (n : Z)
| VObject (json : option string)    (* JSON.stringify: the text, or it throws *)
| VUndefined
| VSymbol
| VFunction.

(** [value.toString(2).length] for a bigint *)
Definition binary_length (n : Z) : Z :=
  if n =? 0 then 1
  else if n <? 0 then Z.log2 (- n) + 2
  else Z.log2 n + 1.

(** [Math.ceil(x / 8)] *)
Definition ceil_div8 (x : Z) : Z := (x + 7) / 8.

Definition byteLength (s : string) : Z := Z.of_nat (String.length s).

Definition measureSize (value : JsValue) : Z :=
  match value with
  | VBuffer len => Z.of_N len
  | VString s => byteLength s
  | VNumber _ => 8
  | VBoolean _ => 4
  | VBigInt n => ceil_div8 (if n =? 0 then 1 else binary_length n) + 8
  | VObject (Some json) => byteLength json
  | VObject None => 0
  | VUndefined | VSymbol | VFunction => 0
  end.

Record CacheEntry : Type := mkEntry {
  size : Z;
  value : JsValue;
  expiresAt : num
}.

Record CacheOptions : Type := mkOptions {
  opt_ttl : option num;
  opt_maxItems : option num;
  opt_maxMemoryInMb : option num
}.

(** How a JS expression completes. *)
Inductive Completion (A : Type) : Type :=
| Normal (a : A)
| Throw (message : string).
Arguments Normal {A} a.
Arguments Throw {A} message.

(** Keys are compared by identity ([SameValueZero]). *)
Class EqDec (A : Type) : Type :=
  eq_dec : forall x y : A, {x = y} + {x <> y}.

#[export] Instance string_EqDec : EqDec string := string_dec.

Section CacheModel.

Context {Key : Type} `{EqDec Key}.

(** ** The JS [Map] of entries, in insertion order *)

Definition JsMap : Type := list (Key * CacheEntry).

Fixpoint Map_get (key : Key) (m : JsMap) : option CacheEntry :=
  match m with
  | [] => None
  | (k, e) :: rest => if eq_dec key k then Some e else Map_get key rest
  end.

Fixpoint Map_delete (key : Key) (m : JsMap) : JsMap :=
  match m with
  | [] => []
  | (k, e) :: rest =>
      if eq_dec key k then Map_delete key rest else (k, e) :: Map_delete key rest
  end.

(** [Map.set]: an existing key keeps its position, a new key goes last. *)
Fixpoint Map_set (key : Key) (e : CacheEntry) (m : JsMap) : JsMap :=
  match m with
  | [] => [(key, e)]
  | (k, e') :: rest =>
      if eq_dec key k then (k, e) :: rest else (k, e') :: Map_set key e rest
  end.

Definition Map_keys (m : JsMap) : list Key := map fst m.

Definition Map_size (m : JsMap) : Z := Z.of_nat (List.length m).

(** ** A JS [Set] of keys *)

Definition KeySet : Type := list Key.

Definition Set_has (key : Key) (s : KeySet) : bool :=
  if in_dec eq_dec key s then true else false.

Definition Set_add (key : Key) (s : KeySet) : KeySet :=
  if Set_has key s then s else s ++ [key].

Fixpoint Set_delete (key : Key) (s : KeySet) : KeySet :=
  match s with
  | [] => []
  | k :: rest => if eq_dec key k then Set_delete key rest else k :: Set_delete key rest
  end.

Definition Set_size (s : KeySet) : Z := Z.of_nat (List.length s).

(** ** The ordered tree of buckets, smallest timestamp first *)

Definition Tree : Type := list (Z * KeySet).

Fixpoint Tree_get (ts : Z) (t : Tree) : option KeySet :=
  match t with
  | [] => None
  | (k, b) :: rest => if ts =? k then Some b else Tree_get ts rest
  end.

Fixpoint Tree_insert (ts : Z) (b : KeySet) (t : Tree) : Tree :=
  match t with
  | [] => [(ts, b)]
  | (k, b') :: rest =>
      if ts <=? k then (ts, b) :: t else (k, b') :: Tree_insert ts b rest
  end.

(** [tree.remove(key)]: removes the first node with that key. *)
Fixpoint Tree_remove (ts : Z) (t : Tree) : Tree :=
  match t with
  | [] => []
  | (k, b) :: rest => if ts =? k then rest else (k, b) :: Tree_remove ts rest
  end.

(** A bucket is a mutable [Set] held by its node: mutating the set that
    [tree.get(ts)] returned changes the bucket in place. *)
Fixpoint Tree_update (ts : Z) (f : KeySet -> KeySet) (t : Tree) : Tree :=
  match t with
  | [] => []
  | (k, b) :: rest =>
      if ts =? k then (k, f b) :: rest else (k, b) :: Tree_update ts f rest
  end.

(** [tree.begin]: the node of the smallest key, when there is one. *)
Definition Tree_begin (t : Tree) : option (Z * KeySet) := hd_error t.

(** ** The cache and the runtime it schedules work on *)

(** Work handed to [setImmediate]. *)
Inductive Task : Type :=
| TaskPrune
| TaskAddTTL (key : Key) (expiresAt : Z).

Record Cache : Type := mkCache {
  maxItems : num;                 (* #maxItems *)
  ttl : num;                      (* #ttl *)
  data : JsMap;                   (* #data *)
  memory_current : Z;             (* #memory.current, in bytes *)
  memory_max : num;               (* #memory.max, in bytes *)
  timeout_id : option nat;        (* #timeout.id *)
  timeout_tree : Tree;            (* #timeout.tree *)
  timeout_timestamp : num;        (* #timeout.timestamp *)
  noPruneScheduled : bool;        (* #noPruneScheduled *)
  immediates : list Task;         (* runtime: the setImmediate queue *)
  timers : list (nat * Z);        (* runtime: armed handles and when they are due *)
  next_handle : nat               (* runtime: the next fresh handle *)
}.

Definition with_data (d : JsMap) (c : Cache) : Cache :=
  mkCache (maxItems c) (ttl c) d (memory_current c) (memory_max c)
          (timeout_id c) (timeout_tree c) (timeout_timestamp c)
          (noPruneScheduled c) (immediates c) (timers c) (next_handle c).

Definition with_memory_current (m : Z) (c : Cache) : Cache :=
  mkCache (maxItems c) (ttl c) (data c) m (memory_max c)
          (timeout_id c) (timeout_tree c) (timeout_timestamp c)
          (noPruneScheduled c) (immediates c) (timers c) (next_handle c).

Definition with_timeout_id (i : option nat) (c : Cache) : Cache :=
  mkCache (maxItems c) (ttl c) (data c) (memory_current c) (memory_max c)
          i (timeout_tree c) (timeout_timestamp c)
          (noPruneScheduled c) (immediates c) (timers c) (next_handle c).

Definition with_timeout_tree (t : Tree) (c : Cache) : Cache :=
  mkCache (maxItems c) (ttl c) (data c) (memory_current c) (memory_max c)
          (timeout_id c) t (timeout_timestamp c)
          (noPruneScheduled c) (immediates c) (timers c) (next_handle c).

Definition with_timeout_timestamp (ts : num) (c : Cache) : Cache :=
  mkCache (maxItems c) (ttl c) (data c) (memory_current c) (memory_max c)
          (timeout_id c) (timeout_tree c) ts
          (noPruneScheduled c) (immediates c) (timers c) (next_handle c).

Definition with_noPruneScheduled (b : bool) (c : Cache) : Cache :=
  mkCache (maxItems c) (ttl c) (data c) (memory_current c) (memory_max c)
          (timeout_id c) (timeout_tree c) (timeout_timestamp c)
          b (immediates c) (timers c) (next_handle c).

Definition with_immediates (q : list Task) (c : Cache) : Cache :=
  mkCache (maxItems c) (ttl c) (data c) (memory_current c) (memory_max c)
          (timeout_id c) (timeout_tree c) (timeout_timestamp c)
          (noPruneScheduled c) q (timers c) (next_handle c).

Definition with_timers (ts : list (nat * Z)) (c : Cache) : Cache :=
  mkCache (maxItems c) (ttl c) (data c) (memory_current c) (memory_max c)
          (timeout_id c) (timeout_tree c) (timeout_timestamp c)
          (noPruneScheduled c) (immediates c) ts (next_handle c).

Definition with_next_handle (n : nat) (c : Cache) : Cache :=
  mkCache (maxItems c) (ttl c) (data c) (memory_current c) (memory_max c)
          (timeout_id c) (timeout_tree c) (timeout_timestamp c)
          (noPruneScheduled c) (immediates c) (timers c) n.

(** *** Runtime primitives *)

Definition setImmediate (t : Task) (c : Cache) : Cache :=
  with_immediates (immediates c ++ [t]) c.

(** [clearTimeout(id)]: the handle is no longer armed; clearing a handle
    that already fired or was cleared does nothing. *)
Definition clearTimeout (id : nat) (c : Cache) : Cache :=
  with_timers (filter (fun t => negb (Nat.eqb (fst t) id)) (timers c)) c.

(** The largest delay the runtime accepts, [2 ** 31 - 1] milliseconds. *)
Definition TIMEOUT_MAX : Z := 2 ^ 31 - 1.

(** What the runtime makes of the delay given to [setTimeout]: a delay
    below 1 or above [TIMEOUT_MAX] is replaced by 1. *)
Definition timer_delay (delay : Z) : Z :=
  if (1 <=? delay) && (delay <=? TIMEOUT_MAX) then delay else 1.

(** [setTimeout(cb, delay)] called at [now]: arms a fresh handle, due
    after the delay the runtime makes of [delay], and returns it with the
    new state. *)
Definition setTimeout (delay now : Z) (c : Cache) : nat * Cache :=
  let id := next_handle c in
  (id, with_next_handle (S id)
         (with_timers (timers c ++ [(id, now + timer_delay delay)]) c)).

(** *** The constructor *)

Definition default (o : option num) : num :=
  match o with
  | Some n => n
  | None => Infinity
  end.

Definition Cache_new (opts : CacheOptions) : Cache :=
  mkCache (default (opt_maxItems opts))
          (default (opt_ttl opts))
          []
          0
          (mb_to_bytes (default (opt_maxMemoryInMb opts)))
          None [] Infinity
          true
          [] [] 0%nat.

(** [new Cache(opts)] as an expression: the constructor body has no
    [throw]. *)
Definition construct (opts : CacheOptions) : Completion Cache :=
  Normal (Cache_new opts).

(** *** Private methods *)

(** [this.#timeout.tree.begin.key || Infinity] *)
Definition begin_key_or_Infinity (t : Tree) : num :=
  match Tree_begin t with
  | Some (k, _) => if k =? 0 then Infinity else Fin k
  | None => Infinity
  end.

Definition scheduleNextTimer (now : Z) (c : Cache) : Cache :=
  let c :=
    match timeout_id c with
    | Some id => clearTimeout id c
    | None => c
    end in
  let c := with_timeout_timestamp (begin_key_or_Infinity (timeout_tree c)) c in
  match timeout_timestamp c with
  | Fin ts =>
      let '(id, c) := setTimeout (Z.max (ts - now) 0) now c in
      with_timeout_id (Some id) c
  | Infinity => c
  end.

Definition addTTL (key : Key) (expiresAt : Z) (now : Z) (c : Cache) : Cache :=
  let c :=
    match Tree_get expiresAt (timeout_tree c) with
    | None => with_timeout_tree (Tree_insert expiresAt [] (timeout_tree c)) c
    | Some _ => c
    end in
  let c := with_timeout_tree (Tree_update expiresAt (Set_add key) (timeout_tree c)) c in
  if num_ltb (Fin expiresAt) (timeout_timestamp c)
  then scheduleNextTimer now c
  else c.

(** The body of the inner [for (key of keysToExpire)] of [#onKeyExpired]. *)
Fixpoint reap (keys : KeySet) (c : Cache) : Cache :=
  match keys with
  | [] => c
  | key :: rest =>
      match Map_get key (data c) with
      | Some cache =>
          reap rest (with_memory_current (memory_current c - size cache)
                      (with_data (Map_delete key (data c)) c))
      | None => reap rest c
      end
  end.

(** The outer loop of [#onKeyExpired]: [t] is what is left of the tree,
    its head is [tree.begin] and its tail is [tree.begin.remove()]. *)
Fixpoint expire_loop (now : Z) (t : Tree) (c : Cache) : Cache :=
  match t with
  | [] => with_timeout_tree [] c
  | (ts, keysToExpire) :: rest =>
      if ts <=? now
      then expire_loop now rest (reap keysToExpire c)
      else with_timeout_tree t c
  end.

Definition onKeyExpired (now : Z) (c : Cache) : Cache :=
  let c := with_timeout_id None c in
  let c := expire_loop now (timeout_tree c) c in
  match Tree_begin (timeout_tree c) with
  | Some _ => scheduleNextTimer now c
  | None => c
  end.

(** The loop of [#prune] over [this.#data.keys()]; every visited key is
    deleted, so the keys still to visit are the rest of the snapshot. *)
Fixpoint prune_loop (keys : list Key) (c : Cache) : Cache :=
  match keys with
  | [] => c
  | key :: rest =>
      if num_ltb (Fin (Map_size (data c))) (maxItems c)
         && num_ltb (Fin (memory_current c)) (memory_max c)
      then c
      else
        match Map_get key (data c) with
        | Some e =>
            prune_loop rest
              (with_data (Map_delete key (data c))
                 (with_memory_current (memory_current c - size e) c))
        | None => c (* not reached: [key] comes from the map *)
        end
  end.

Definition prune (c : Cache) : Cache :=
  let c := with_noPruneScheduled true c in
  prune_loop (Map_keys (data c)) c.

(** *** Public methods *)

Definition delete (key : Key) (now : Z) (c : Cache) : Cache :=
  match Map_get key (data c) with
  | None => c
  | Some cache =>
      let c := with_data (Map_delete key (data c)) c in
      let c := with_memory_current (memory_current c - size cache) c in
      match expiresAt cache with
      | Infinity => c
      | Fin ts =>
          match Tree_get ts (timeout_tree c) with
          | None => c
          | Some keysToExpire =>
              if Set_size keysToExpire =? 1
              then
                let c := with_timeout_tree (Tree_remove ts (timeout_tree c)) c in
                if num_eqb (expiresAt cache) (timeout_timestamp c)
                then scheduleNextTimer now c
                else c
              else
                with_timeout_tree
                  (Tree_update ts (Set_delete key) (timeout_tree c)) c
          end
      end
  end.

(** The [ttl] argument of [set], defaulting to [this.#ttl]. *)
Definition ttl_arg (o : option num) (c : Cache) : num :=
  match o with
  | Some t => t
  | None => ttl c
  end.

Definition set (key : Key) (v : JsValue) (ttl : option num) (now : Z) (c : Cache)
  : Cache :=
  let ttl := ttl_arg ttl c in
  let c := delete key now c in
  let sz := measureSize v in
  let expires := num_add (Fin now) ttl in
  let c := with_data (Map_set key (mkEntry sz v expires) (data c)) c in
  let c := with_memory_current (memory_current c + sz) c in
  let c :=
    if noPruneScheduled c
       && (num_ltb (maxItems c) (Fin (Map_size (data c)))
           || num_ltb (memory_max c) (Fin (memory_current c)))
    then setImmediate TaskPrune (with_noPruneScheduled false c)
    else c in
  match expires with
  | Fin ts => setImmediate (TaskAddTTL key ts) c
  | Infinity => c
  end.

Definition get (key : Key) (now : Z) (c : Cache) : Cache * option JsValue :=
  match Map_get key (data c) with
  | Some cache =>
      if num_ltb (Fin now) (expiresAt cache)
      then (with_data (Map_set key cache (Map_delete key (data c))) c,
            Some (value cache))
      else (c, None)
  | None => (c, None)
  end.

Definition has (key : Key) (now : Z) (c : Cache) : bool :=
  match Map_get key (data c) with
  | Some cache => num_ltb (Fin now) (expiresAt cache)
  | None => false
  end.

Definition clear (c : Cache) : Cache :=
  let c :=
    match timeout_id c with
    | Some id => clearTimeout id c
    | None => c
    end in
  let c := with_data [] c in
  let c := with_memory_current 0 c in
  with_timeout_timestamp Infinity (with_timeout_tree [] (with_timeout_id None c)).

Definition get_size (c : Cache) : Z := Map_size (data c).



(** ** The event loop *)

Inductive Event : Type :=
| CallSet (key : Key) (v : JsValue) (ttl : option num)
| CallGet (key : Key)
| CallHas (key : Key)
| CallDelete (key : Key)
| CallClear
| RunImmediate               (* the oldest queued task runs *)
| FireTimer (id : nat).      (* the handle [id] fires *)

Definition run_task (t : Task) (now : Z) (c : Cache) : Cache :=
  match t with
  | TaskPrune => prune c
  | TaskAddTTL key ts => addTTL key ts now c
  end.

(** One turn at instant [now].  An event that cannot happen (no task is
    queued, the handle is not armed or not yet due) leaves the state as it
    is. *)
Definition step (now : Z) (ev : Event) (c : Cache) : Cache :=
  match ev with
  | CallSet key v ttl => set key v ttl now c
  | CallGet key => fst (get key now c)
  | CallHas key => c
  | CallDelete key => delete key now c
  | CallClear => clear c
  | RunImmediate =>
      match immediates c with
      | [] => c
      | t :: q => run_task t now (with_immediates q c)
      end
  | FireTimer id =>
      match find (fun t => Nat.eqb (fst t) id) (timers c) with
      | Some (_, due) =>
          if due <=? now
          then onKeyExpired now (clearTimeout id c)
          else c
      | None => c
      end
  end.

Fixpoint run (trace : list (Z * Event)) (c : Cache) : Cache :=
  match trace with
  | [] => c
  | (now, ev) :: rest => run rest (step now ev c)
  end.

(** The key an event touches: the key of a [set], or of a [get] that
    returns a value. *)
Definition touched (now : Z) (ev : Event) (c : Cache) : list Key :=
  match ev with
  | CallSet key _ _ => [key]
  | CallGet key => if has key now c then [key] else []
  | _ => []
  end.

(** The keys touched along a trace, oldest touch first. *)
Fixpoint touches (trace : list (Z * Event)) (c : Cache) : list Key :=
  match trace with
  | [] => []
  | (now, ev) :: rest => touched now ev c ++ touches rest (step now ev c)
  end.

(** The calls of [set], [get] and [has] of a trace, in order: what is
    left when nothing is deleted, cleared, pruned or expired. *)
Definition is_set_or_get (p : Z * Event) : bool :=
  match snd p with
  | CallSet _ _ _ | CallGet _ | CallHas _ => true
  | _ => false
  end.

Definition set_get_calls (trace : list (Z * Event)) : list (Z * Event) :=
  filter is_set_or_get trace.

(** The recency order of a touch log: every key once, ordered by its last
    touch, oldest first. *)
Definition recency (log : list Key) : list Key := nodup eq_dec log.

Definition present (c : Cache) (key : Key) : bool :=
  match Map_get key (data c) with
  | Some _ => true
  | None => false
  end.

Fixpoint total_size (m : JsMap) : Z :=
  match m with
  | [] => 0
  | (_, e) :: rest => size e + total_size rest
  end.

(** The bucket of timestamp [ts] holds [key]. *)
Definition in_bucket (key : Key) (ts : Z) (c : Cache) : bool :=
  match Tree_get ts (timeout_tree c) with
  | Some b => Set_has key b
  | None => false
  end.

(** ** Invariants *)

Implicit Types (c : Cache) (keys log : list Key).

(** The entries are keyed once and the counter is their total size. *)
Definition store_ok c : Prop :=
  NoDup (Map_keys (data c)) /\ memory_current c = total_size (data c).

(** The buckets are in strictly ascending order of timestamp. *)
Definition tree_sorted c : Prop :=
  StronglySorted Z.lt (map fst (timeout_tree c)).

(** The runtime holds no armed handle, or exactly the one the cache
    remembers. *)
Definition timers_ok c : Prop :=
  timers c = [] \/
  exists id due, timers c = [(id, due)] /\ timeout_id c = Some id.

Definition Inv c : Prop := store_ok c /\ tree_sorted c /\ timers_ok c.

(** The configuration of [c'] is that of [c]. *)
Definition same_config c c' : Prop :=
  maxItems c' = maxItems c /\ ttl c' = ttl c /\ memory_max c' = memory_max c.

(** The keys of the map are the recency order with some keys taken out. *)
Definition in_recency_order (keys log : list Key) : Prop :=
  exists f, keys = filter f (recency log).

(** Every stored entry carries the estimate of its own value. *)
Definition sizes_ok c : Prop :=
  Forall (fun p => size (snd p) = measureSize (value (snd p))) (data c).

(** No bucket is empty and no bucket holds a key twice. *)
Definition buckets_ok c : Prop :=
  Forall (fun p : Z * KeySet => snd p <> [] /\ NoDup (snd p)) (timeout_tree c).

(** The number of prune passes waiting in the [setImmediate] queue. *)
Fixpoint prune_pending (q : list Task) : nat :=
  match q with
  | [] => 0
  | TaskPrune :: rest => S (prune_pending rest)
  | TaskAddTTL _ _ :: rest => prune_pending rest
  end.

(** [#noPruneScheduled] tells whether a prune pass is waiting, and never
    more than one is. *)
Definition coalesced c : Prop :=
  prune_pending (immediates c) = if noPruneScheduled c then 0%nat else 1%nat.

(** The queue and the flag of [c'] are those of [c]. *)
Definition same_queue c c' : Prop :=
  immediates c' = immediates c /\ noPruneScheduled c' = noPruneScheduled c.

(** The test on which the loop of [#prune] stops, for the entries [m] with
    the counter at their total size. *)
Definition stop_test c (m : JsMap) : bool :=
  num_ltb (Fin (Map_size m)) (maxItems c)
  && num_ltb (Fin (total_size m)) (memory_max c).

(** The test on which [set] asks for a prune pass. *)
Definition over_limits c : bool :=
  num_ltb (maxItems c) (Fin (Map_size (data c)))
  || num_ltb (memory_max c) (Fin (memory_current c)).

(** [0 <= n] *)
Definition num_nonneg (n : num) : bool :=
  match n with
  | Fin z => 0 <=? z
  | Infinity => true
  end.

(** No bucket that is left is due at [now]. *)
Definition no_bucket_due (now : Z) c : Prop :=
  Forall (fun p : Z * KeySet => now < fst p) (timeout_tree c).

(** [key] is in no bucket that is due at [now]. *)
Definition in_no_due_bucket (key : Key) (now : Z) c : bool :=
  forallb (fun p : Z * KeySet => negb ((fst p <=? now) && Set_has key (snd p)))
          (timeout_tree c).

End CacheModel.

(** ** Concrete caches, with strings for keys *)

Definition no_options : CacheOptions := mkOptions None None None.

(** [{ maxItems: 2 }] *)
Definition maxItems_two : CacheOptions := mkOptions None (Some (Fin 2)) None.

(** [{ ttl: -1 }] *)
Definition negative_ttl : CacheOptions := mkOptions (Some (Fin (-1))) None None.

Definition is_negative (o : option num) : bool :=
  match o with
  | Some (Fin z) => (z <? 0)%Z
  | _ => false
  end.

(** The configuration has a negative ttl, maxItems or maxMemoryInMb. *)
Definition negative_config (opts : CacheOptions) : bool :=
  is_negative (opt_ttl opts)
  || is_negative (opt_maxItems opts)
  || is_negative (opt_maxMemoryInMb opts).

(** [set(a, X); set(b, Y); set(c, Z)] at the instants [t1], [t2], [t3]. *)
Definition three_sets (vX vY vZ : JsValue) (t1 t2 t3 : Z) : list (Z * Event) :=
  [(t1, CallSet "a"%string vX None);
   (t2, CallSet "b"%string vY None);
   (t3, CallSet "c"%string vZ None)].

(** The same, then the queued prune pass at [t4]. *)
Definition three_sets_then_prune (vX vY vZ : JsValue) (t1 t2 t3 t4 : Z)
  : list (Z * Event) :=
  three_sets vX vY vZ t1 t2 t3 ++ [(t4, RunImmediate)].

(** [set(a, X, 1000)] at instant 0 and its queued registration, then
    [set(b, Y)] and [set(c, Z)], which queue a prune pass. *)
Definition ttl_entry_then_overflow (vX vY vZ : JsValue) : list (Z * Event) :=
  [(0, CallSet "a"%string vX (Some (Fin 1000)));
   (0, RunImmediate);
   (1, CallSet "b"%string vY None);
   (2, CallSet "c"%string vZ None)].

(** [set(k, v1, 10)] directly followed by [set(k, v2)] with the default,
    unbounded ttl, both at instant 0; then the registration queued by the
    first [set] runs. *)
Definition replace_before_registration (v1 v2 : JsValue) : list (Z * Event) :=
  [(0, CallSet "k"%string v1 (Some (Fin 10)));
   (0, CallSet "k"%string v2 None);
   (0, RunImmediate)].

(** [set(k, v1, 10)] directly followed by [set(k, v2, 1000)], both at
    instant 0; then the two queued registrations run. *)
Definition replace_with_longer_ttl (v1 v2 : JsValue) : list (Z * Event) :=
  [(0, CallSet "k"%string v1 (Some (Fin 10)));
   (0, CallSet "k"%string v2 (Some (Fin 1000)));
   (0, RunImmediate);
   (0, RunImmediate)].

(** [set(k, v, 10)] at instant 0 and its queued registration. *)
Definition set_with_ttl_registered (v : JsValue) : list (Z * Event) :=
  [(0, CallSet "k"%string v (Some (Fin 10)));
   (0, RunImmediate)].

(** None of ttl, maxItems and maxMemoryInMb is negative. *)
Definition nonneg_config (opts : CacheOptions) : bool :=
  num_nonneg (default (opt_ttl opts))
  && num_nonneg (default (opt_maxItems opts))
  && num_nonneg (default (opt_maxMemoryInMb opts)).

(** [{ maxItems: 3, maxMemoryInMb: 1 }] *)
Definition three_items_one_mb : CacheOptions :=
  mkOptions None (Some (Fin 3)) (Some (Fin 1)).

(** Two keys with the same expiry 10 and one with expiry 30, all
    registered; the timer is armed for 10. *)
Definition two_buckets : list (Z * Event) :=
  [(0, CallSet "k"%string (VNumber 1) (Some (Fin 10)));
   (0, CallSet "j"%string (VString "abc") (Some (Fin 10)));
   (0, CallSet "m"%string (VBoolean true) (Some (Fin 30)));
   (0, RunImmediate);
   (0, RunImmediate);
   (0, RunImmediate)].

Ltac break_match :=
  match goal with
  | |- context [match ?x with _ => _ end] => destruct x eqn:?
  end.

Lemma measureSize_nonneg (v : JsValue) : 0 <= measureSize v.
Proof.
  destruct v as [len|s|n|b|n|[json|]| | |]; cbn; unfold byteLength; try lia.
  unfold ceil_div8, binary_length.
  assert (Hlog : forall x, 0 <= Z.log2 x) by apply Z.log2_nonneg.
  destruct (n =? 0); [cbn; lia|].
  destruct (n <? 0).
  - specialize (Hlog (- n)).
    assert (0 <= (Z.log2 (- n) + 2 + 7) / 8) by (apply Z.div_pos; lia). lia.
  - specialize (Hlog n).
    assert (0 <= (Z.log2 n + 1 + 7) / 8) by (apply Z.div_pos; lia). lia.
Qed.

Section CacheProofs.

Context {Key : Type} `{EqDec Key}.

Implicit Types (m : JsMap (Key := Key)) (c : Cache (Key := Key)) (key k : Key).

(** ** The entry map *)

Lemma Map_get_None_iff key m : Map_get key m = None <-> ~ In key (Map_keys m).
Proof.
  induction m as [|[k e] rest IH]; cbn.
  - tauto.
  - destruct (eq_dec key k) as [->|Hne].
    + split; [discriminate | intros Hn; exfalso; apply Hn; now left].
    + rewrite IH. split; intros Hn; [intros [->|Hin]; tauto | tauto].
Qed.

Lemma Map_get_Some_In key m e : Map_get key m = Some e -> In key (Map_keys m).
Proof.
  intros Hg. destruct (in_dec eq_dec key (Map_keys m)) as [Hin|Hn]; [exact Hin|].
  apply Map_get_None_iff in Hn. congruence.
Qed.

Lemma Map_keys_delete key m :
  Map_keys (Map_delete key m) = remove eq_dec key (Map_keys m).
Proof.
  unfold Map_keys.
  induction m as [|[k e] rest IH]; cbn; [reflexivity|].
  destruct (eq_dec key k); cbn; now rewrite IH.
Qed.

Lemma Map_get_delete_same key m : Map_get key (Map_delete key m) = None.
Proof.
  apply Map_get_None_iff. rewrite Map_keys_delete. apply remove_In.
Qed.

Lemma Map_get_delete_other key k m :
  key <> k -> Map_get k (Map_delete key m) = Map_get k m.
Proof.
  intros Hne. induction m as [|[k' e] rest IH]; cbn; [reflexivity|].
  destruct (eq_dec key k') as [->|Hne'].
  - destruct (eq_dec k k'); [congruence | exact IH].
  - cbn. destruct (eq_dec k k'); [reflexivity | exact IH].
Qed.

Lemma Map_delete_absent key m : ~ In key (Map_keys m) -> Map_delete key m = m.
Proof.
  induction m as [|[k e] rest IH]; cbn; [reflexivity|].
  intros Hn. destruct (eq_dec key k) as [->|Hne]; [tauto|].
  rewrite IH; tauto.
Qed.

Lemma Map_set_absent key e m :
  Map_get key m = None -> Map_set key e m = m ++ [(key, e)].
Proof.
  induction m as [|[k e'] rest IH]; cbn; [reflexivity|].
  destruct (eq_dec key k); [discriminate|]. intros Hg. now rewrite IH.
Qed.

Lemma Map_delete_absent_get key m : Map_get key m = None -> Map_delete key m = m.
Proof. intros Hg. apply Map_delete_absent. now apply Map_get_None_iff. Qed.

Lemma Map_keys_reinsert key e m :
  Map_keys (Map_set key e (Map_delete key m)) = remove eq_dec key (Map_keys m) ++ [key].
Proof.
  rewrite Map_set_absent by apply Map_get_delete_same.
  unfold Map_keys. rewrite map_app. cbn. fold (Map_keys (Map_delete key m)).
  now rewrite Map_keys_delete.
Qed.

Lemma Map_get_reinsert_same key e m :
  Map_get key (Map_set key e (Map_delete key m)) = Some e.
Proof.
  pose proof (Map_get_delete_same key m) as Hd.
  rewrite Map_set_absent by exact Hd.
  induction (Map_delete key m) as [|[k e'] rest IH]; cbn in *.
  - destruct (eq_dec key key); congruence.
  - destruct (eq_dec key k); [discriminate | now apply IH].
Qed.

(** ** Accounting: the counter is the sum of the stored sizes *)

Lemma total_size_app m1 m2 : total_size (m1 ++ m2) = total_size m1 + total_size m2.
Proof.
  induction m1 as [|[k e] rest IH]; cbn; [reflexivity|]. rewrite IH. lia.
Qed.

Lemma total_size_delete key e m :
  NoDup (Map_keys m) -> Map_get key m = Some e ->
  total_size (Map_delete key m) = total_size m - size e.
Proof.
  unfold Map_keys.
  induction m as [|[k e'] rest IH]; cbn; [discriminate|].
  intros Hnd Hg. inversion Hnd as [|? ? Hnin Hnd']; subst.
  destruct (eq_dec key k) as [->|Hne].
  - injection Hg as ->. rewrite Map_delete_absent by exact Hnin. lia.
  - cbn. rewrite IH by assumption. lia.
Qed.

Lemma NoDup_remove_keys key (l : list Key) : NoDup l -> NoDup (remove eq_dec key l).
Proof.
  induction 1 as [|x l Hnin Hnd IH]; cbn; [constructor|].
  destruct (eq_dec key x); [exact IH|].
  constructor; [|exact IH].
  intros Hin. apply in_remove in Hin. tauto.
Qed.

Lemma NoDup_reinsert key (l : list Key) :
  NoDup l -> NoDup (remove eq_dec key l ++ [key]).
Proof.
  intros Hnd. apply NoDup_app.
  - now apply NoDup_remove_keys.
  - repeat constructor. intros [].
  - intros x Hin [<-|[]]. revert Hin. apply remove_In.
Qed.

(** *** What [#scheduleNextTimer] leaves alone *)

Lemma scheduleNextTimer_data now c : data (scheduleNextTimer now c) = data c.
Proof. unfold scheduleNextTimer. destruct (timeout_id c); cbn; break_match; reflexivity. Qed.

Lemma scheduleNextTimer_memory_current now c :
  memory_current (scheduleNextTimer now c) = memory_current c.
Proof. unfold scheduleNextTimer. destruct (timeout_id c); cbn; break_match; reflexivity. Qed.

Lemma scheduleNextTimer_tree now c :
  timeout_tree (scheduleNextTimer now c) = timeout_tree c.
Proof. unfold scheduleNextTimer. destruct (timeout_id c); cbn; break_match; reflexivity. Qed.

Lemma scheduleNextTimer_store_ok now c : store_ok c -> store_ok (scheduleNextTimer now c).
Proof.
  unfold store_ok. now rewrite scheduleNextTimer_data, scheduleNextTimer_memory_current.
Qed.

Lemma scheduleNextTimer_tree_sorted now c :
  tree_sorted c -> tree_sorted (scheduleNextTimer now c).
Proof. unfold tree_sorted. now rewrite scheduleNextTimer_tree. Qed.

(** After [#scheduleNextTimer] at most the handle it has just armed is
    armed. *)
Lemma scheduleNextTimer_timers_ok now c :
  timers_ok c -> timers_ok (scheduleNextTimer now c).
Proof.
  intros Hok.
  assert (Hclr : timers (match timeout_id c with
                         | Some id => clearTimeout id c
                         | None => c
                         end) = []).
  { destruct Hok as [Hnil|(id & due & Ht & Hid)].
    - destruct (timeout_id c); cbn; rewrite ?Hnil; reflexivity.
    - rewrite Hid. cbn. rewrite Ht. cbn. now rewrite Nat.eqb_refl. }
  unfold scheduleNextTimer.
  destruct (match timeout_id c with Some id => clearTimeout id c | None => c end)
    as [mi tt d mc mm tid tree tst np im tm nh] eqn:Hc.
  cbn in Hclr. subst tm. cbn.
  destruct (begin_key_or_Infinity tree) as [ts|]; cbn.
  - right. exists nh, (now + timer_delay (Z.max (ts - now) 0)). split; reflexivity.
  - left. reflexivity.
Qed.


(** *** The tree stays sorted *)

Lemma Tree_update_keys ts f (t : Tree (Key := Key)) :
  map fst (Tree_update ts f t) = map fst t.
Proof.
  induction t as [|[k b] rest IH]; cbn; [reflexivity|].
  destruct (ts =? k); cbn; [reflexivity | now rewrite IH].
Qed.

Lemma Tree_remove_incl ts (t : Tree (Key := Key)) x :
  In x (map fst (Tree_remove ts t)) -> In x (map fst t).
Proof.
  induction t as [|[k b] rest IH]; cbn; [tauto|].
  destruct (ts =? k); cbn; intuition.
Qed.

Lemma Tree_remove_sorted ts (t : Tree (Key := Key)) :
  StronglySorted Z.lt (map fst t) -> StronglySorted Z.lt (map fst (Tree_remove ts t)).
Proof.
  induction t as [|[k b] rest IH]; cbn; [auto|].
  intros Hs. inversion Hs as [|? ? Hs' Hall]; subst.
  destruct (ts =? k); cbn; [exact Hs'|].
  constructor; [now apply IH|].
  rewrite Forall_forall in *. intros x Hin. apply Hall.
  now apply Tree_remove_incl in Hin.
Qed.

Lemma Tree_insert_incl ts b (t : Tree (Key := Key)) x :
  In x (map fst (Tree_insert ts b t)) -> x = ts \/ In x (map fst t).
Proof.
  induction t as [|[k b'] rest IH]; cbn; [intuition|].
  destruct (ts <=? k); cbn; intuition.
Qed.

Lemma Tree_insert_sorted ts b (t : Tree (Key := Key)) :
  Tree_get ts t = None ->
  StronglySorted Z.lt (map fst t) ->
  StronglySorted Z.lt (map fst (Tree_insert ts b t)).
Proof.
  induction t as [|[k b'] rest IH]; cbn.
  - intros _ _. repeat constructor.
  - destruct (ts =? k) eqn:Heq; [discriminate|]. apply Z.eqb_neq in Heq.
    intros Hg Hs. inversion Hs as [|? ? Hs' Hall]; subst.
    destruct (ts <=? k) eqn:Hle; cbn.
    + apply Z.leb_le in Hle. constructor; [exact Hs|].
      constructor; [lia|].
      rewrite Forall_forall in *. intros x Hin. specialize (Hall x Hin). lia.
    + apply Z.leb_gt in Hle. constructor; [now apply IH|].
      rewrite Forall_forall in *. intros x Hin.
      apply Tree_insert_incl in Hin as [->|Hin]; [lia | now apply Hall].
Qed.

Lemma Tree_get_In ts (t : Tree (Key := Key)) b :
  Tree_get ts t = Some b -> In (ts, b) t.
Proof.
  induction t as [|[k b'] rest IH]; cbn; [discriminate|].
  destruct (ts =? k) eqn:Heq.
  - apply Z.eqb_eq in Heq. intros [= ->]. left. now subst.
  - intros Hg. right. now apply IH.
Qed.

(** *** [delete] *)

Lemma delete_data key now c : data (delete key now c) = Map_delete key (data c).
Proof.
  unfold delete. destruct (Map_get key (data c)) eqn:Hg.
  - repeat break_match; rewrite ?scheduleNextTimer_data; reflexivity.
  - symmetry. now apply Map_delete_absent_get.
Qed.

Lemma delete_memory_current key now c :
  memory_current (delete key now c) =
  match Map_get key (data c) with
  | Some e => memory_current c - size e
  | None => memory_current c
  end.
Proof.
  unfold delete. destruct (Map_get key (data c)) eqn:Hg; [|reflexivity].
  repeat break_match; rewrite ?scheduleNextTimer_memory_current; reflexivity.
Qed.

Lemma delete_store_ok key now c : store_ok c -> store_ok (delete key now c).
Proof.
  intros [Hnd Hmem]. unfold store_ok.
  rewrite delete_data, delete_memory_current, Map_keys_delete.
  split; [now apply NoDup_remove_keys|].
  destruct (Map_get key (data c)) eqn:Hg.
  - rewrite (total_size_delete key c0) by assumption. lia.
  - now rewrite Map_delete_absent_get.
Qed.

Lemma delete_tree_sorted key now c : tree_sorted c -> tree_sorted (delete key now c).
Proof.
  unfold tree_sorted, delete. intros Hs.
  repeat break_match; rewrite ?scheduleNextTimer_tree; cbn;
    rewrite ?Tree_update_keys; auto using Tree_remove_sorted.
Qed.

Lemma delete_timers_ok key now c : timers_ok c -> timers_ok (delete key now c).
Proof.
  unfold delete. intros Hok.
  repeat break_match; try apply scheduleNextTimer_timers_ok; exact Hok.
Qed.

Lemma delete_Inv key now c : Inv c -> Inv (delete key now c).
Proof.
  intros (Hs & Ht & Hm).
  split; [|split];
    auto using delete_store_ok, delete_tree_sorted, delete_timers_ok.
Qed.


(** *** [set], [get] and [clear] *)

Lemma set_data key v o now c :
  data (set key v o now c) =
  Map_set key (mkEntry (measureSize v) v (num_add (Fin now) (ttl_arg o c)))
          (Map_delete key (data c)).
Proof.
  unfold set, setImmediate. rewrite <- (delete_data key now c).
  repeat (break_match; cbn); reflexivity.
Qed.

Lemma set_memory_current key v o now c :
  memory_current (set key v o now c) =
  memory_current (delete key now c) + measureSize v.
Proof.
  unfold set, setImmediate. repeat (break_match; cbn); reflexivity.
Qed.

Lemma set_tree key v o now c :
  timeout_tree (set key v o now c) = timeout_tree (delete key now c).
Proof.
  unfold set, setImmediate. repeat (break_match; cbn); reflexivity.
Qed.

Lemma set_timers key v o now c :
  timers (set key v o now c) = timers (delete key now c) /\
  timeout_id (set key v o now c) = timeout_id (delete key now c).
Proof.
  unfold set, setImmediate. repeat (break_match; cbn); split; reflexivity.
Qed.

Lemma total_size_reinsert key e m :
  total_size (Map_set key e (Map_delete key m)) = total_size (Map_delete key m) + size e.
Proof.
  rewrite Map_set_absent by apply Map_get_delete_same.
  rewrite total_size_app. cbn. lia.
Qed.

Lemma set_Inv key v o now c : Inv c -> Inv (set key v o now c).
Proof.
  intros HI. apply (delete_Inv key now) in HI.
  destruct HI as ((Hnd & Hmem) & Ht & Hm).
  split; [|split].
  - unfold store_ok. rewrite set_data, set_memory_current, Map_keys_reinsert.
    rewrite delete_data in Hnd, Hmem.
    split.
    + rewrite Map_keys_delete in Hnd. apply NoDup_app; [exact Hnd| |].
      * repeat constructor. intros [].
      * intros x Hin [<-|[]]. revert Hin. apply remove_In.
    + rewrite total_size_reinsert. cbn. lia.
  - unfold tree_sorted. rewrite set_tree. exact Ht.
  - destruct (set_timers key v o now c) as [E1 E2].
    unfold timers_ok. rewrite E1, E2. exact Hm.
Qed.

Lemma get_data key now c :
  data (fst (get key now c)) =
  if has key now c
  then match Map_get key (data c) with
       | Some e => Map_set key e (Map_delete key (data c))
       | None => data c
       end
  else data c.
Proof.
  unfold get, has. repeat (break_match; cbn); reflexivity.
Qed.

Lemma get_Inv key now c : Inv c -> Inv (fst (get key now c)).
Proof.
  intros HI. pose proof HI as ((Hnd & Hmem) & Ht & Hm). unfold get.
  destruct (Map_get key (data c)) as [e|] eqn:Hg; [|exact HI].
  destruct (num_ltb (Fin now) (expiresAt e)); [|exact HI].
  split; [|split]; [|exact Ht|exact Hm].
  unfold store_ok, with_data. cbn [fst data memory_current].
  rewrite Map_keys_reinsert, total_size_reinsert.
  split; [now apply NoDup_reinsert|].
  rewrite (total_size_delete key e) by assumption. lia.
Qed.

Lemma clear_Inv c : Inv c -> Inv (clear c).
Proof.
  intros (_ & _ & Hm). unfold clear. split; [|split].
  - destruct (timeout_id c); split; cbn; (constructor || reflexivity).
  - destruct (timeout_id c); constructor.
  - left. destruct Hm as [Hnil|(id & due & Ht & Hid)].
    + destruct (timeout_id c); cbn; rewrite Hnil; reflexivity.
    + rewrite Hid. cbn. rewrite Ht. cbn. now rewrite Nat.eqb_refl.
Qed.


(** *** [#prune] *)

Lemma prune_loop_frame keys c :
  timeout_tree (prune_loop keys c) = timeout_tree c /\
  timers (prune_loop keys c) = timers c /\
  timeout_id (prune_loop keys c) = timeout_id c /\
  maxItems (prune_loop keys c) = maxItems c /\
  memory_max (prune_loop keys c) = memory_max c.
Proof.
  revert c. induction keys as [|key rest IH]; intros c; cbn [prune_loop]; [tauto|].
  repeat break_match; try tauto.
  match goal with |- context [prune_loop rest ?c'] => destruct (IH c') as (-> & -> & -> & -> & ->) end.
  tauto.
Qed.

(** A pass of the loop deletes the first [n] entries of the map, for some
    [n], and takes their sizes off the counter. *)
Lemma prune_loop_prefix c :
  NoDup (Map_keys (data c)) ->
  exists n,
    data (prune_loop (Map_keys (data c)) c) = skipn n (data c) /\
    memory_current (prune_loop (Map_keys (data c)) c) =
      memory_current c - (total_size (data c) - total_size (skipn n (data c))).
Proof.
  remember (data c) as l eqn:Hl. revert c Hl.
  induction l as [|[k e] rest IH]; intros c Hl Hnd.
  - exists 0%nat. cbn. rewrite <- Hl. cbn. split; [reflexivity | lia].
  - cbn [Map_keys map fst prune_loop].
    destruct (num_ltb (Fin (Map_size (data c))) (maxItems c)
              && num_ltb (Fin (memory_current c)) (memory_max c)).
    + exists 0%nat. cbn [skipn]. rewrite <- Hl. split; [reflexivity | lia].
    + rewrite <- Hl. cbn [Map_get Map_delete].
      destruct (eq_dec k k) as [_|Hne]; [|congruence].
      inversion Hnd as [|? ? Hnin Hnd']; subst.
      rewrite Map_delete_absent by exact Hnin.
      specialize (IH (with_data rest (with_memory_current (memory_current c - size e) c))
                     eq_refl Hnd').
      destruct IH as (n & Hd & Hm). exists (S n). cbn [skipn total_size].
      fold (Map_keys rest). rewrite Hd, Hm. cbn. split; [reflexivity | lia].
Qed.

Lemma skipn_NoDup {A} n (l : list A) : NoDup l -> NoDup (skipn n l).
Proof.
  revert l. induction n as [|n IH]; intros [|x l] Hnd; cbn; auto.
  inversion Hnd; subst. now apply IH.
Qed.

Lemma Map_keys_skipn n m : Map_keys (skipn n m) = skipn n (Map_keys m).
Proof. unfold Map_keys. symmetry. apply skipn_map. Qed.

Lemma prune_Inv c : Inv c -> Inv (prune c).
Proof.
  intros ((Hnd & Hmem) & Ht & Hm). unfold prune.
  set (c' := with_noPruneScheduled true c).
  destruct (prune_loop_frame (Map_keys (data c')) c') as (Etree & Etm & Eid & _).
  destruct (prune_loop_prefix c' Hnd) as (n & Hd & Hmc).
  split; [|split].
  - unfold store_ok. rewrite Hd, Hmc, Map_keys_skipn.
    split; [now apply skipn_NoDup|].
    subst c'. cbn [data memory_current with_noPruneScheduled]. lia.
  - unfold tree_sorted. rewrite Etree. exact Ht.
  - unfold timers_ok. rewrite Etm, Eid. exact Hm.
Qed.

(** A prune pass never touches the expiry index. *)
Lemma prune_keeps_tree c : timeout_tree (prune c) = timeout_tree c.
Proof.
  unfold prune.
  match goal with |- context [prune_loop ?k ?c'] =>
    destruct (prune_loop_frame k c') as (-> & _) end.
  reflexivity.
Qed.

(** The loop goes on until the map is empty or both counts are strictly
    below their limits. *)
Lemma prune_loop_stop c :
  NoDup (Map_keys (data c)) ->
  data (prune_loop (Map_keys (data c)) c) = [] \/
  num_ltb (Fin (Map_size (data (prune_loop (Map_keys (data c)) c)))) (maxItems c)
  && num_ltb (Fin (memory_current (prune_loop (Map_keys (data c)) c))) (memory_max c)
  = true.
Proof.
  remember (data c) as l eqn:Hl. revert c Hl.
  induction l as [|[k e] rest IH]; intros c Hl Hnd.
  - left. cbn. now rewrite <- Hl.
  - cbn [Map_keys map fst prune_loop].
    destruct (num_ltb (Fin (Map_size (data c))) (maxItems c)
              && num_ltb (Fin (memory_current c)) (memory_max c)) eqn:Hstop.
    + right. exact Hstop.
    + rewrite <- Hl. cbn [Map_get Map_delete].
      destruct (eq_dec k k) as [_|Hne]; [|congruence].
      inversion Hnd as [|? ? Hnin Hnd']; subst.
      rewrite Map_delete_absent by exact Hnin.
      exact (IH (with_data rest (with_memory_current (memory_current c - size e) c))
                eq_refl Hnd').
Qed.

(** *** [#addTTL] *)

Lemma addTTL_data key ts now c : data (addTTL key ts now c) = data c.
Proof.
  unfold addTTL. repeat break_match; rewrite ?scheduleNextTimer_data; reflexivity.
Qed.

Lemma addTTL_memory_current key ts now c :
  memory_current (addTTL key ts now c) = memory_current c.
Proof.
  unfold addTTL.
  repeat break_match; rewrite ?scheduleNextTimer_memory_current; reflexivity.
Qed.

Lemma addTTL_Inv key ts now c : Inv c -> Inv (addTTL key ts now c).
Proof.
  intros ((Hnd & Hmem) & Ht & Hm). split; [|split].
  - unfold store_ok. now rewrite addTTL_data, addTTL_memory_current.
  - unfold tree_sorted in *. unfold addTTL.
    repeat break_match; rewrite ?scheduleNextTimer_tree; cbn;
      rewrite Tree_update_keys; auto using Tree_insert_sorted.
  - unfold addTTL.
    repeat break_match; try apply scheduleNextTimer_timers_ok; exact Hm.
Qed.

(** *** [#onKeyExpired] *)

Lemma reap_frame (keys : KeySet) c :
  timeout_tree (reap keys c) = timeout_tree c /\
  timers (reap keys c) = timers c /\
  timeout_id (reap keys c) = timeout_id c.
Proof.
  revert c. induction keys as [|key rest IH]; intros c; cbn [reap]; [tauto|].
  destruct (Map_get key (data c)); [|apply IH].
  match goal with |- context [reap rest ?c'] => destruct (IH c') as (-> & -> & ->) end.
  tauto.
Qed.

Lemma reap_store_ok (keys : KeySet) c : store_ok c -> store_ok (reap keys c).
Proof.
  revert c. induction keys as [|key rest IH]; intros c Hok; cbn [reap]; [exact Hok|].
  destruct (Map_get key (data c)) as [e|] eqn:Hg; [|now apply IH].
  apply IH. destruct Hok as [Hnd Hmem]. unfold store_ok, with_memory_current, with_data.
  cbn [data memory_current]. rewrite Map_keys_delete.
  split; [now apply NoDup_remove_keys|].
  rewrite (total_size_delete key e) by assumption. lia.
Qed.

Lemma expire_loop_frame now (t : Tree) c :
  timers (expire_loop now t c) = timers c /\
  timeout_id (expire_loop now t c) = timeout_id c.
Proof.
  revert c. induction t as [|[ts ks] rest IH]; intros c; cbn [expire_loop]; [tauto|].
  destruct (ts <=? now); [|tauto].
  destruct (IH (reap ks c)) as (-> & ->).
  destruct (reap_frame ks c) as (_ & -> & ->). tauto.
Qed.

Lemma expire_loop_store_ok now (t : Tree) c :
  store_ok c -> store_ok (expire_loop now t c).
Proof.
  revert c. induction t as [|[ts ks] rest IH]; intros c Hok; cbn [expire_loop];
    [exact Hok|].
  destruct (ts <=? now); [|exact Hok].
  apply IH. now apply reap_store_ok.
Qed.

Lemma expire_loop_tree_sorted now (t : Tree) c :
  StronglySorted Z.lt (map fst t) -> tree_sorted (expire_loop now t c).
Proof.
  revert c. induction t as [|[ts ks] rest IH]; intros c Hs; cbn [expire_loop].
  - constructor.
  - destruct (ts <=? now); [|exact Hs].
    apply IH. now inversion Hs.
Qed.

Lemma onKeyExpired_Inv now c :
  store_ok c -> tree_sorted c -> timers c = [] -> Inv (onKeyExpired now c).
Proof.
  intros Hs Ht Hnil. unfold onKeyExpired.
  set (c1 := expire_loop now _ _).
  assert (HI : Inv c1).
  { split; [|split].
    - subst c1. apply expire_loop_store_ok. exact Hs.
    - subst c1. apply expire_loop_tree_sorted. exact Ht.
    - left. subst c1.
      match goal with |- timers (expire_loop ?n ?t ?c') = _ =>
        destruct (expire_loop_frame n t c') as (-> & _) end.
      exact Hnil. }
  destruct HI as (Hs1 & Ht1 & Hm1).
  destruct (Tree_begin (timeout_tree c1)); [|split; [|split]; assumption].
  split; [|split];
    auto using scheduleNextTimer_store_ok, scheduleNextTimer_tree_sorted,
               scheduleNextTimer_timers_ok.
Qed.

(** *** Every reachable state satisfies the invariant *)

Lemma Cache_new_Inv opts : Inv (Cache_new (Key := Key) opts).
Proof.
  split; [|split].
  - split; [constructor | reflexivity].
  - constructor.
  - now left.
Qed.

Lemma fired_handle_cleared id due c :
  timers_ok c ->
  find (fun t => Nat.eqb (fst t) id) (timers c) = Some (id, due) ->
  timers (clearTimeout id c) = [].
Proof.
  intros [Hnil|(i & d & Ht & _)] Hf.
  - rewrite Hnil in Hf. discriminate.
  - rewrite Ht in Hf. cbn in Hf. unfold clearTimeout. cbn. rewrite Ht. cbn.
    destruct (Nat.eqb i id); [reflexivity | discriminate].
Qed.

Lemma find_handle id (l : list (nat * Z)) i due :
  find (fun t => Nat.eqb (fst t) id) l = Some (i, due) -> i = id.
Proof.
  intros Hf. apply find_some in Hf as [_ Heq]. cbn in Heq.
  now apply Nat.eqb_eq in Heq.
Qed.

Lemma step_Inv now ev c : Inv c -> Inv (step now ev c).
Proof.
  intros HI. destruct ev as [key v o|key|key|key| | |id]; cbn [step].
  - now apply set_Inv.
  - now apply get_Inv.
  - exact HI.
  - now apply delete_Inv.
  - now apply clear_Inv.
  - destruct (immediates c) as [|t q] eqn:Hq; [exact HI|].
    assert (HI' : Inv (with_immediates q c)) by exact HI.
    destruct t as [|key ts]; cbn [run_task].
    + now apply prune_Inv.
    + now apply addTTL_Inv.
  - destruct (find _ (timers c)) as [[i due]|] eqn:Hf; [|exact HI].
    destruct (due <=? now); [|exact HI].
    pose proof (find_handle _ _ _ _ Hf) as ->.
    destruct HI as (Hs & Ht & Hm).
    apply onKeyExpired_Inv; [exact Hs | exact Ht |].
    eapply fired_handle_cleared; eassumption.
Qed.

Lemma run_Inv trace c : Inv c -> Inv (run trace c).
Proof.
  revert c. induction trace as [|[now ev] rest IH]; intros c HI; cbn [run];
    [exact HI|].
  apply IH. now apply step_Inv.
Qed.

Lemma reachable_Inv opts trace : Inv (run trace (Cache_new (Key := Key) opts)).
Proof. apply run_Inv, Cache_new_Inv. Qed.


(** *** The configuration never changes *)

Lemma same_config_refl c : same_config c c.
Proof. repeat split. Qed.

Lemma same_config_trans c1 c2 c3 :
  same_config c1 c2 -> same_config c2 c3 -> same_config c1 c3.
Proof. unfold same_config. intros (-> & -> & ->) (-> & -> & ->). repeat split. Qed.

Lemma scheduleNextTimer_config now c : same_config c (scheduleNextTimer now c).
Proof.
  unfold scheduleNextTimer, same_config.
  destruct (timeout_id c); cbn; break_match; repeat split.
Qed.

Lemma delete_config key now c : same_config c (delete key now c).
Proof.
  unfold delete.
  repeat break_match;
    try (eapply same_config_trans; [|apply scheduleNextTimer_config]);
    repeat split.
Qed.

Lemma set_config key v o now c : same_config c (set key v o now c).
Proof.
  eapply same_config_trans; [apply (delete_config key now)|].
  unfold set, setImmediate, same_config. repeat (break_match; cbn); repeat split.
Qed.

Lemma reap_config (keys : KeySet) c : same_config c (reap keys c).
Proof.
  revert c. induction keys as [|key rest IH]; intros c; cbn [reap];
    [apply same_config_refl|].
  destruct (Map_get key (data c)); [|apply IH].
  eapply same_config_trans; [|apply IH]. repeat split.
Qed.

Lemma expire_loop_config now (t : Tree) c : same_config c (expire_loop now t c).
Proof.
  revert c. induction t as [|[ts ks] rest IH]; intros c; cbn [expire_loop];
    [repeat split|].
  destruct (ts <=? now); [|repeat split].
  eapply same_config_trans; [apply reap_config | apply IH].
Qed.

Lemma prune_loop_config keys c : same_config c (prune_loop keys c).
Proof.
  revert c. induction keys as [|key rest IH]; intros c; cbn [prune_loop];
    [apply same_config_refl|].
  repeat break_match; try apply same_config_refl.
  eapply same_config_trans; [|apply IH]. repeat split.
Qed.

Lemma step_config now ev c : same_config c (step now ev c).
Proof.
  destruct ev as [key v o|key|key|key| | |id]; cbn [step].
  - apply set_config.
  - unfold get. repeat (break_match; cbn); repeat split.
  - apply same_config_refl.
  - apply delete_config.
  - unfold clear. destruct (timeout_id c); repeat split.
  - destruct (immediates c) as [|[|key ts] q]; cbn [run_task].
    + apply same_config_refl.
    + unfold prune.
      eapply same_config_trans; [|apply prune_loop_config]. repeat split.
    + unfold addTTL.
      repeat break_match;
        try (eapply same_config_trans; [|apply scheduleNextTimer_config]);
        repeat split.
  - repeat break_match; try apply same_config_refl.
    unfold onKeyExpired.
    repeat break_match;
      try (eapply same_config_trans; [|apply scheduleNextTimer_config]);
      (eapply same_config_trans; [|apply expire_loop_config]); repeat split.
Qed.

Lemma run_config trace c : same_config c (run trace c).
Proof.
  revert c. induction trace as [|[now ev] rest IH]; intros c; cbn [run].
  - apply same_config_refl.
  - eapply same_config_trans; [apply step_config | apply IH].
Qed.

(** *** Recency *)

Lemma remove_as_filter key (l : list Key) :
  remove eq_dec key l = filter (fun x => if eq_dec key x then false else true) l.
Proof.
  induction l as [|x l IH]; cbn; [reflexivity|].
  destruct (eq_dec key x); now rewrite IH.
Qed.

Lemma filter_filter {A} (f g : A -> bool) (l : list A) :
  filter g (filter f l) = filter (fun x => f x && g x) l.
Proof.
  induction l as [|x l IH]; cbn; [reflexivity|].
  destruct (f x); cbn; [destruct (g x)|]; now rewrite IH.
Qed.

Lemma remove_filter_comm key (f : Key -> bool) (l : list Key) :
  remove eq_dec key (filter f l) = filter f (remove eq_dec key l).
Proof.
  rewrite !remove_as_filter, !filter_filter. apply filter_ext.
  intros x. apply andb_comm.
Qed.

(** Touching [key] moves it to the newest place of the recency order. *)
Lemma recency_touch key (log : list Key) :
  recency (log ++ [key]) = remove eq_dec key (recency log) ++ [key].
Proof.
  unfold recency. induction log as [|x log IH]; cbn.
  - reflexivity.
  - destruct (in_dec eq_dec x (log ++ [key])) as [Hin|Hnin];
      destruct (in_dec eq_dec x log) as [Hin'|Hnin'].
    + exact IH.
    + rewrite IH. cbn. apply in_app_or in Hin as [Hin|[<-|[]]]; [tauto|].
      destruct (eq_dec key key); [reflexivity | congruence].
    + exfalso. apply Hnin, in_or_app. now left.
    + cbn. destruct (eq_dec key x) as [->|Hne].
      * exfalso. apply Hnin, in_or_app. right. now left.
      * cbn. now rewrite IH.
Qed.

Lemma in_recency_order_removal keys log g :
  in_recency_order keys log -> in_recency_order (filter g keys) log.
Proof.
  intros [f ->]. exists (fun x => f x && g x). apply filter_filter.
Qed.

Lemma in_recency_order_touch keys log key :
  in_recency_order keys log ->
  in_recency_order (remove eq_dec key keys ++ [key]) (log ++ [key]).
Proof.
  intros [f ->]. exists (fun x => if eq_dec key x then true else f x).
  rewrite recency_touch, filter_app, remove_filter_comm. cbn.
  destruct (eq_dec key key) as [_|Hne]; [|congruence]. f_equal.
  apply filter_ext_in. intros x Hin.
  destruct (eq_dec key x) as [<-|Hne]; [|reflexivity].
  exfalso. revert Hin. apply remove_In.
Qed.

Lemma in_recency_order_present c log :
  in_recency_order (Map_keys (data c)) log ->
  Map_keys (data c) = filter (present c) (recency log).
Proof.
  intros [f Hf]. rewrite Hf at 1. apply filter_ext_in. intros x Hin.
  unfold present.
  destruct (Map_get x (data c)) as [e|] eqn:Hg.
  - apply Map_get_Some_In in Hg. rewrite Hf in Hg. now apply filter_In in Hg.
  - apply Map_get_None_iff in Hg. rewrite Hf in Hg.
    destruct (f x) eqn:Hfx; [|reflexivity].
    exfalso. apply Hg, filter_In. now split.
Qed.

(** What each operation does to the order of the keys. *)

Lemma delete_keys key now c :
  Map_keys (data (delete key now c)) = remove eq_dec key (Map_keys (data c)).
Proof. now rewrite delete_data, Map_keys_delete. Qed.

Lemma set_keys key v o now c :
  Map_keys (data (set key v o now c)) = remove eq_dec key (Map_keys (data c)) ++ [key].
Proof. now rewrite set_data, Map_keys_reinsert. Qed.

Lemma get_keys key now c :
  Map_keys (data (fst (get key now c))) =
  if has key now c
  then remove eq_dec key (Map_keys (data c)) ++ [key]
  else Map_keys (data c).
Proof.
  rewrite get_data. unfold has.
  destruct (Map_get key (data c)) as [e|]; [|reflexivity].
  destruct (num_ltb (Fin now) (expiresAt e)); [|reflexivity].
  apply Map_keys_reinsert.
Qed.

Lemma prune_loop_keys keys c :
  exists g, Map_keys (data (prune_loop keys c)) = filter g (Map_keys (data c)).
Proof.
  revert c. induction keys as [|key rest IH]; intros c; cbn [prune_loop].
  - exists (fun _ => true). symmetry. apply forallb_filter_id.
    apply forallb_forall. reflexivity.
  - repeat break_match;
      try (exists (fun _ => true); symmetry; apply forallb_filter_id;
           apply forallb_forall; reflexivity).
    match goal with |- context [prune_loop rest ?c'] => destruct (IH c') as [g Hg] end.
    rewrite Hg. unfold with_data, with_memory_current. cbn [data].
    rewrite Map_keys_delete, remove_as_filter, filter_filter. eauto.
Qed.

Lemma reap_keys (ks : KeySet) c :
  exists g, Map_keys (data (reap ks c)) = filter g (Map_keys (data c)).
Proof.
  revert c. induction ks as [|key rest IH]; intros c; cbn [reap].
  - exists (fun _ => true). symmetry. apply forallb_filter_id.
    apply forallb_forall. reflexivity.
  - destruct (Map_get key (data c)); [|apply IH].
    match goal with |- context [reap rest ?c'] => destruct (IH c') as [g Hg] end.
    rewrite Hg. unfold with_data, with_memory_current. cbn [data].
    rewrite Map_keys_delete, remove_as_filter, filter_filter. eauto.
Qed.

Lemma expire_loop_keys now (t : Tree) c :
  exists g, Map_keys (data (expire_loop now t c)) = filter g (Map_keys (data c)).
Proof.
  revert c. induction t as [|[ts ks] rest IH]; intros c; cbn [expire_loop].
  - exists (fun _ => true). symmetry. apply forallb_filter_id.
    apply forallb_forall. reflexivity.
  - destruct (ts <=? now).
    + destruct (IH (reap ks c)) as [g Hg]. destruct (reap_keys ks c) as [g' Hg'].
      rewrite Hg, Hg', filter_filter. eauto.
    + exists (fun _ => true). symmetry. apply forallb_filter_id.
      apply forallb_forall. reflexivity.
Qed.

Lemma onKeyExpired_data now c :
  data (onKeyExpired now c) =
  data (expire_loop now (timeout_tree c) (with_timeout_id None c)).
Proof.
  unfold onKeyExpired. cbn [timeout_tree with_timeout_id].
  break_match; rewrite ?scheduleNextTimer_data; reflexivity.
Qed.

Lemma step_keys now ev c :
  (touched now ev c = [] /\
   exists g, Map_keys (data (step now ev c)) = filter g (Map_keys (data c))) \/
  (exists key, touched now ev c = [key] /\
   Map_keys (data (step now ev c)) = remove eq_dec key (Map_keys (data c)) ++ [key]).
Proof.
  assert (Hid : forall l : list Key, l = filter (fun _ => true) l).
  { intros l. symmetry. apply forallb_filter_id. apply forallb_forall. reflexivity. }
  destruct ev as [key v o|key|key|key| | |id]; cbn [step touched].
  - right. exists key. split; [reflexivity | apply set_keys].
  - rewrite get_keys. destruct (has key now c); [right; eauto | left; eauto].
  - left. eauto.
  - left. split; [reflexivity|]. rewrite delete_keys, remove_as_filter. eauto.
  - left. split; [reflexivity|]. exists (fun _ => false).
    unfold clear. destruct (timeout_id c); cbn;
      (induction (data c) as [|? ? IHl]; [reflexivity | exact IHl]).
  - left. split; [reflexivity|].
    destruct (immediates c) as [|[|key ts] q]; cbn [run_task]; [eauto| |].
    + unfold prune.
      match goal with |- context [prune_loop ?k ?c'] =>
        destruct (prune_loop_keys k c') as [g Hg] end.
      exists g. exact Hg.
    + rewrite addTTL_data. cbn [data with_immediates]. eauto.
  - left. split; [reflexivity|].
    repeat break_match; eauto.
    rewrite onKeyExpired_data.
    match goal with |- context [expire_loop ?n ?t ?c'] =>
      destruct (expire_loop_keys n t c') as [g Hg] end.
    exists g. exact Hg.
Qed.

Lemma run_recency trace c log :
  in_recency_order (Map_keys (data c)) log ->
  in_recency_order (Map_keys (data (run trace c))) (log ++ touches trace c).
Proof.
  revert c log. induction trace as [|[now ev] rest IH]; intros c log Hin;
    cbn [run touches].
  - now rewrite app_nil_r.
  - rewrite app_assoc. apply IH.
    destruct (step_keys now ev c) as [[-> [g ->]]|[key [-> ->]]].
    + rewrite app_nil_r. now apply in_recency_order_removal.
    + now apply in_recency_order_touch.
Qed.


(** *** Reaping *)

Lemma Map_get_delete_None key k m :
  Map_get k m = None -> Map_get k (Map_delete key m) = None.
Proof.
  intros Hg. destruct (eq_dec key k) as [->|Hne].
  - apply Map_get_delete_same.
  - now rewrite Map_get_delete_other.
Qed.

Lemma reap_absent (ks : KeySet) k c :
  Map_get k (data c) = None -> Map_get k (data (reap ks c)) = None.
Proof.
  revert c. induction ks as [|key rest IH]; intros c Hg; cbn [reap]; [exact Hg|].
  destruct (Map_get key (data c)); apply IH; [|exact Hg].
  cbn [data with_data with_memory_current]. now apply Map_get_delete_None.
Qed.

Lemma reap_removes (ks : KeySet) k c :
  In k ks -> Map_get k (data (reap ks c)) = None.
Proof.
  revert c. induction ks as [|key rest IH]; intros c Hin; [destruct Hin|].
  cbn [reap]. destruct Hin as [->|Hin].
  - destruct (Map_get k (data c)) eqn:Hg; apply reap_absent; [|exact Hg].
    cbn [data with_data with_memory_current]. apply Map_get_delete_same.
  - destruct (Map_get key (data c)); now apply IH.
Qed.

Lemma expire_loop_absent now (t : Tree) k c :
  Map_get k (data c) = None -> Map_get k (data (expire_loop now t c)) = None.
Proof.
  revert c. induction t as [|[ts ks] rest IH]; intros c Hg; cbn [expire_loop];
    [exact Hg|].
  destruct (ts <=? now); [|exact Hg].
  apply IH. now apply reap_absent.
Qed.

(** Every bucket that is due is consumed, and its keys leave the map. *)
Lemma expire_loop_reaps now (t : Tree) ts b k c :
  StronglySorted Z.lt (map fst t) ->
  Tree_get ts t = Some b -> In k b -> ts <= now ->
  Map_get k (data (expire_loop now t c)) = None.
Proof.
  revert c. induction t as [|[ts' ks] rest IH]; intros c Hs Hg Hin Hle;
    [discriminate|].
  cbn [expire_loop]. cbn [Tree_get] in Hg.
  inversion Hs as [|? ? Hs' Hall]; subst.
  destruct (ts =? ts') eqn:Heq.
  - apply Z.eqb_eq in Heq. subst ts'. injection Hg as ->.
    destruct (ts <=? now) eqn:Hl; [|apply Z.leb_gt in Hl; lia].
    apply expire_loop_absent. now apply reap_removes.
  - pose proof (Tree_get_In _ _ _ Hg) as Hin'.
    apply (in_map fst) in Hin'. cbn [fst] in Hin'.
    rewrite Forall_forall in Hall. specialize (Hall _ Hin').
    destruct (ts' <=? now) eqn:Hl; [|apply Z.leb_gt in Hl; lia].
    now apply IH.
Qed.

Lemma Set_has_In key (b : KeySet) : Set_has key b = true -> In key b.
Proof. unfold Set_has. destruct (in_dec eq_dec key b); [tauto | discriminate]. Qed.

Lemma armed_handle_found id due c :
  timers_ok c -> In (id, due) (timers c) ->
  find (fun t => Nat.eqb (fst t) id) (timers c) = Some (id, due).
Proof.
  intros [Hnil|(i & d & Ht & _)] Hin.
  - rewrite Hnil in Hin. destruct Hin.
  - rewrite Ht in *. destruct Hin as [[= -> ->]|[]]. cbn.
    now rewrite Nat.eqb_refl.
Qed.

(** ** The claims *)

(** C5. Single timer.  In every state the cache reaches from its
    construction, whatever was set, deleted, cleared, registered or
    expired on the way, the runtime holds at most one armed timer handle,
    and when it holds one it is the handle recorded in [#timeout.id]. *)
Theorem single_timer_invariant (opts : CacheOptions) (trace : list (Z * Event)) :
  let c := run trace (Cache_new (Key := Key) opts) in
  (List.length (timers c) <= 1)%nat
  /\ (timers c = [] \/
      exists id due, timers c = [(id, due)] /\ timeout_id c = Some id).
Proof.
  intros c. destruct (reachable_Inv opts trace) as (_ & _ & Hm). fold c in Hm.
  split; [|exact Hm].
  destruct Hm as [->|(id & due & -> & _)]; cbn; lia.
Qed.

(** C9. Deleting a key that is not stored changes nothing: the call
    returns and the whole state (entries, memory counter, expiry index,
    timer and queued work) is the state before the call. *)
Theorem delete_absent_noop (key : Key) (now : Z) (c : Cache) :
  Map_get key (data c) = None -> delete key now c = c.
Proof.
  intros Hg. unfold delete. now rewrite Hg.
Qed.


Lemma set_stores key v o now c :
  Map_get key (data (set key v o now c)) =
  Some (mkEntry (measureSize v) v (num_add (Fin now) (ttl_arg o c))).
Proof. rewrite set_data. apply Map_get_reinsert_same. Qed.

Lemma store_ok_includes key e c :
  store_ok c -> Map_get key (data c) = Some e ->
  memory_current c = size e + total_size (Map_delete key (data c)).
Proof.
  intros [Hnd Hmem] Hg. rewrite (total_size_delete key e) by assumption. lia.
Qed.

(** TTL while the entry is stored.  In every state the cache reaches: (1)
    right after [set] with a finite ttl [d] at instant [t0], [has] answers true at
    every instant before [t0 + d] and false from [t0 + d] on; (2) more
    generally, while an entry with finite expiry [ts] is stored, [has]
    answers true exactly at the instants before [ts]; (3) when the armed
    timer fires at an instant at which the bucket holding the key is due,
    the key is no longer in the entry map, [has] is false for it at every
    instant, and the memory counter is the total size of the entries that
    remain, so the size of the reaped entry, which the counter included
    before, has been taken off. *)
Theorem ttl_correctness (opts : CacheOptions) (trace : list (Z * Event)) (key : Key) :
  let c := run trace (Cache_new opts) in
  (forall v o d t0 t,
      ttl_arg o c = Fin d ->
      has key t (set key v o t0 c) = (t <? t0 + d))
  /\ (forall e ts t,
      Map_get key (data c) = Some e -> expiresAt e = Fin ts ->
      has key t c = (t <? ts))
  /\ (forall ts id due now,
      in_bucket key ts c = true -> ts <= now ->
      In (id, due) (timers c) -> due <= now ->
      let c' := step now (FireTimer id) c in
      Map_get key (data c') = None
      /\ (forall t, has key t c' = false)
      /\ memory_current c' = total_size (data c')
      /\ (forall e, Map_get key (data c) = Some e ->
                    memory_current c = size e + total_size (Map_delete key (data c)))).
Proof.
  intros c. pose proof (reachable_Inv opts trace) as HI. fold c in HI.
  split; [|split].
  - intros v o d t0 t Httl. unfold has. rewrite set_stores, Httl. reflexivity.
  - intros e ts t Hg He. unfold has. rewrite Hg, He. reflexivity.
  - intros ts id due now Hb Hle Hin Hdue c'.
    pose proof HI as (Hs & Ht & Hm).
    assert (Hc' : c' = onKeyExpired now (clearTimeout id c)).
    { subst c'. cbn [step]. rewrite (armed_handle_found id due c Hm Hin).
      destruct (due <=? now) eqn:Hl; [reflexivity | apply Z.leb_gt in Hl; lia]. }
    assert (Habs : Map_get key (data c') = None).
    { rewrite Hc', onKeyExpired_data.
      unfold in_bucket in Hb.
      destruct (Tree_get ts (timeout_tree c)) as [b|] eqn:Hg; [|discriminate].
      apply Set_has_In in Hb.
      eapply expire_loop_reaps; eauto. }
    assert (HI' : Inv c') by (subst c'; now apply step_Inv).
    repeat split.
    + exact Habs.
    + intros t. unfold has. now rewrite Habs.
    + apply HI'.
    + intros e Hg. now apply store_ok_includes.
Qed.

(** C10. An expired entry that is still stored.  In every state the cache
    reaches: (1) for an entry whose finite [expiresAt] is at or before
    [now], [has] is false and [get] returns nothing and changes nothing,
    while the key is still among the keys the size accessor counts and the
    memory counter is the size of that entry plus the total of the others;
    (2) [set] with a finite ttl [d <= 0] at [t0] stores such an entry: at
    every instant from [t0] on, [has] is false and [get] returns nothing,
    yet the size is one more than without the key and the memory counter
    includes the estimated size of the value. *)
Theorem expired_entry_hidden_but_counted
    (opts : CacheOptions) (trace : list (Z * Event)) (key : Key) (now : Z) :
  let c := run trace (Cache_new opts) in
  (forall e ts,
      Map_get key (data c) = Some e -> expiresAt e = Fin ts -> ts <= now ->
      has key now c = false
      /\ get key now c = (c, None)
      /\ In key (Map_keys (data c))
      /\ 1 <= get_size c
      /\ memory_current c = size e + total_size (Map_delete key (data c)))
  /\ (forall v o d t0,
      ttl_arg o c = Fin d -> d <= 0 -> t0 <= now ->
      let c1 := set key v o t0 c in
      has key now c1 = false
      /\ get key now c1 = (c1, None)
      /\ In key (Map_keys (data c1))
      /\ get_size c1 = get_size (delete key t0 c) + 1
      /\ memory_current c1 = measureSize v + total_size (Map_delete key (data c))).
Proof.
  intros c. pose proof (reachable_Inv opts trace) as HI. fold c in HI.
  split.
  - intros e ts Hg He Hle.
    assert (Hlt : num_ltb (Fin now) (expiresAt e) = false).
    { rewrite He. cbn. apply Z.ltb_ge. lia. }
    pose proof (Map_get_Some_In _ _ _ Hg) as Hin.
    repeat split.
    + unfold has. now rewrite Hg.
    + unfold get. now rewrite Hg, Hlt.
    + exact Hin.
    + unfold get_size, Map_size. unfold Map_keys in Hin.
      destruct (data c); [destruct Hin | cbn [List.length]; lia].
    + apply store_ok_includes; [apply HI | exact Hg].
  - intros v o d t0 Httl Hd Ht0 c1.
    pose proof (set_stores key v o t0 c) as Hg. fold c1 in Hg.
    rewrite Httl in Hg. cbn [num_add] in Hg.
    assert (Hlt : (now <? t0 + d) = false) by (apply Z.ltb_ge; lia).
    repeat split.
    + unfold has. rewrite Hg. cbn. exact Hlt.
    + unfold get. rewrite Hg. cbn. now rewrite Hlt.
    + eapply Map_get_Some_In; eauto.
    + unfold get_size, Map_size. subst c1.
      rewrite set_data, delete_data.
      rewrite Map_set_absent by apply Map_get_delete_same.
      rewrite length_app. cbn [List.length]. lia.
    + subst c1. rewrite set_memory_current.
      destruct (delete_store_ok key t0 c (proj1 HI)) as [_ Hmem].
      rewrite Hmem, delete_data. lia.
Qed.


(** C7 as the code has it.  The constructor validates nothing: for every
    configuration, a negative ttl, maxItems or maxMemoryInMb included, it
    completes normally with a cache that keeps the ttl and maxItems it was
    given ([Infinity] when left out) and the ceiling
    [maxMemoryInMb * 1024 ** 2] bytes, with no entry stored. *)
Theorem constructor_accepts_every_configuration (opts : CacheOptions) :
  exists c : Cache (Key := Key),
    construct opts = Normal c
    /\ ttl c = default (opt_ttl opts)
    /\ maxItems c = default (opt_maxItems opts)
    /\ memory_max c = mb_to_bytes (default (opt_maxMemoryInMb opts))
    /\ data c = [] /\ memory_current c = 0.
Proof.
  exists (Cache_new opts). repeat split.
Qed.

End CacheProofs.

(** ** The claims on concrete caches *)

Example recency_of_a_b_a :
  recency ["a"%string; "b"%string; "a"%string] = ["b"%string; "a"%string].
Proof. reflexivity. Qed.

(** C1 on the code.  With [maxItems = 2], after [set(a, X)], [set(b, Y)],
    [set(c, Z)] three entries are stored and one prune pass is queued; when
    it has run, ONE entry is left, not two: the loop of [#prune] stops only
    when the size is strictly below [maxItems], so it evicts [b] as well as
    [a]. *)
Theorem prune_leaves_one_of_three (vX vY vZ : JsValue) (t1 t2 t3 t4 t : Z) :
  let queued := run (three_sets vX vY vZ t1 t2 t3) (Cache_new maxItems_two) in
  let c := run (three_sets_then_prune vX vY vZ t1 t2 t3 t4) (Cache_new maxItems_two) in
  get_size queued = 3
  /\ immediates queued = [TaskPrune]
  /\ get_size c = 1
  /\ Map_keys (data c) = ["c"%string]
  /\ has "a"%string t c = false
  /\ has "b"%string t c = false
  /\ has "c"%string t c = true.
Proof.
  vm_compute. repeat split.
Qed.

(** C2 on the code.  [a] is stored with the finite expiry 1000 and
    registered in the bucket of 1000; [set(b, Y)] and [set(c, Z)] then
    overflow [maxItems = 2]; the prune pass evicts [a] from the entry map
    and leaves it in its bucket of the expiry index. *)
Theorem prune_leaves_key_in_bucket (vX vY vZ : JsValue) :
  let c0 := run (ttl_entry_then_overflow vX vY vZ) (Cache_new maxItems_two) in
  let c := step 3 RunImmediate c0 in
  immediates c0 = [TaskPrune]
  /\ Map_get "a"%string (data c0) = Some (mkEntry (measureSize vX) vX (Fin 1000))
  /\ in_bucket "a"%string 1000 c0 = true
  /\ Map_get "a"%string (data c) = None
  /\ in_bucket "a"%string 1000 c = true
  /\ timeout_tree c = [(1000, ["a"%string])].
Proof.
  vm_compute. repeat split.
Qed.

(** C4 on the code.  [set(k, v1, 10)] is replaced by [set(k, v2)] with an
    unbounded ttl before the registration of the first [set] has run.  The
    registration then runs without looking at the entry map: it files [k]
    under the timestamp 10 and arms the timer.  When the timer fires at 10,
    the replacement entry, which never expires, is removed. *)
Theorem stale_registration_removes_replacement (v1 v2 : JsValue) (t : Z) :
  let c0 := run (replace_before_registration v1 v2) (Cache_new no_options) in
  let c := step 10 (FireTimer 0) c0 in
  Map_get "k"%string (data c0) = Some (mkEntry (measureSize v2) v2 Infinity)
  /\ in_bucket "k"%string 10 c0 = true
  /\ timers c0 = [(0%nat, 10)]
  /\ Map_get "k"%string (data c) = None
  /\ has "k"%string t c = false
  /\ get_size c = 0.
Proof.
  vm_compute. repeat split.
Qed.

(** C6 on the code.  [set(k, v1, 10)] is replaced in the same tick by
    [set(k, v2, 1000)], and both queued registrations run: [k] is filed
    under 10 and under 1000, and the timer is armed for 10.  The stored
    entry expires at 1000, and [has(k)] is true at instant 11 as long as
    the timer has not fired.  When the timer fires at 10 it removes the
    entry: [has(k)] is false at instant 11, long before [expiresAt], with
    no [delete] and no prune pass. *)
Theorem stale_bucket_reaps_live_entry (v1 v2 : JsValue) :
  let c0 := run (replace_with_longer_ttl v1 v2) (Cache_new no_options) in
  let c := step 10 (FireTimer 0) c0 in
  Map_get "k"%string (data c0) = Some (mkEntry (measureSize v2) v2 (Fin 1000))
  /\ timeout_tree c0 = [(10, ["k"%string]); (1000, ["k"%string])]
  /\ timers c0 = [(0%nat, 10)]
  /\ immediates c0 = []
  /\ has "k"%string 11 c0 = true
  /\ Map_get "k"%string (data c) = None
  /\ has "k"%string 11 c = false
  /\ get_size c = 0.
Proof.
  vm_compute. repeat split.
Qed.

(** C7 as stated fails: [{ ttl: -1 }] is a configuration with a negative
    ttl, and constructing a cache with it throws nothing. *)
Lemma negative_ttl_is_accepted :
  negative_config negative_ttl = true
  /\ ~ (exists message, construct (Key := string) negative_ttl = Throw message).
Proof.
  split; [reflexivity|]. intros [message Hthrow]. discriminate Hthrow.
Qed.

(** [delete] of a key that was never set, on a cache holding three
    entries. *)
Lemma delete_absent_noop_witness :
  Map_get "z"%string
    (data (run (three_sets (VNumber 1) (VBoolean true) VUndefined 0 1 2)
               (Cache_new no_options))) = None
  /\ delete "z"%string 5
        (run (three_sets (VNumber 1) (VBoolean true) VUndefined 0 1 2)
             (Cache_new no_options))
     = run (three_sets (VNumber 1) (VBoolean true) VUndefined 0 1 2)
           (Cache_new no_options).
Proof.
  split; [reflexivity|].
  apply delete_absent_noop. reflexivity.
Defined.

(** [set(k, 1, 10)] at instant 0: [has] at instant 9, and the timer
    firing at instant 10. *)
Lemma ttl_correctness_witness :
  (has "k"%string 9 (set "k"%string (VNumber 1) (Some (Fin 10)) 0 (Cache_new no_options))
   = (9 <? 0 + 10))
  /\ Map_get "k"%string
       (data (step 10 (FireTimer 0)
                (run (set_with_ttl_registered (VNumber 1)) (Cache_new no_options))))
     = None.
Proof.
  split.
  - apply (proj1 (ttl_correctness no_options [] "k"%string)). reflexivity.
  - destruct (ttl_correctness no_options (set_with_ttl_registered (VNumber 1))
                              "k"%string) as (_ & _ & Hfire).
    destruct (Hfire 10 0%nat 10 10) as [Habsent _].
    + reflexivity.
    + lia.
    + left. reflexivity.
    + lia.
    + exact Habsent.
Defined.

(** [set(k, 1, 10)] at instant 0 seen at instant 12 before any timer has
    fired, and [set(k, true, 0)] seen at the instant of the call. *)
Lemma expired_entry_hidden_but_counted_witness :
  (has "k"%string 12
     (run (set_with_ttl_registered (VNumber 1)) (Cache_new no_options)) = false
   /\ 1 <= get_size (run (set_with_ttl_registered (VNumber 1)) (Cache_new no_options)))
  /\ has "k"%string 3 (set "k"%string (VBoolean true) (Some (Fin 0)) 3
                         (Cache_new no_options)) = false.
Proof.
  split.
  - destruct (expired_entry_hidden_but_counted
                no_options (set_with_ttl_registered (VNumber 1)) "k"%string 12)
      as [Hstored _].
    destruct (Hstored (mkEntry 8 (VNumber 1) (Fin 10)) 10)
      as (Hhas & _ & _ & Hsize & _).
    + reflexivity.
    + reflexivity.
    + lia.
    + split; [exact Hhas | exact Hsize].
  - destruct (expired_entry_hidden_but_counted no_options [] "k"%string 3)
      as [_ Hset].
    destruct (Hset (VBoolean true) (Some (Fin 0)) 0 3) as (Hhas & _).
    + reflexivity.
    + lia.
    + lia.
    + exact Hhas.
Defined.

(** * Further properties of the cache *)

(** ** The size estimator *)

(** X1. The estimate is never negative, whatever the value. *)
Theorem measureSize_never_negative (v : JsValue) : 0 <= measureSize v.
Proof.
  destruct v as [len|s|n|b|n|[json|]| | |]; cbn [measureSize].
  - lia.
  - unfold byteLength. lia.
  - lia.
  - lia.
  - assert (Hbits : 0 <= (if n =? 0 then 1 else binary_length n)).
    { unfold binary_length. destruct (n =? 0); [lia|].
      destruct (n <? 0).
      - pose proof (Z.log2_nonneg (- n)). lia.
      - pose proof (Z.log2_nonneg n). lia. }
    unfold ceil_div8.
    assert (0 <= ((if n =? 0 then 1 else binary_length n) + 7) / 8)
      by (apply Z.div_pos; lia).
    lia.
  - unfold byteLength. lia.
  - lia.
  - lia.
  - lia.
  - lia.
Qed.

Lemma ceil_div8_covers (x : Z) : x <= 8 * ceil_div8 x.
Proof.
  unfold ceil_div8.
  pose proof (Z.div_mod (x + 7) 8 ltac:(lia)) as Hdm.
  pose proof (Z.mod_pos_bound (x + 7) 8 ltac:(lia)) as Hb. lia.
Qed.

(** X2. The estimate of a bigint is 8 header bytes plus enough bytes for
    its binary digits: it is at least 9, and the magnitude of the value
    fits in the bytes that follow the header. *)
Theorem measureSize_bigint_holds_value (n : Z) :
  9 <= measureSize (VBigInt n)
  /\ Z.abs n < 2 ^ (8 * (measureSize (VBigInt n) - 8)).
Proof.
  cbn [measureSize]. unfold binary_length.
  destruct (n =? 0) eqn:H0.
  - apply Z.eqb_eq in H0. subst n. cbn. split; [lia | reflexivity].
  - apply Z.eqb_neq in H0.
    destruct (n <? 0) eqn:Hneg.
    + apply Z.ltb_lt in Hneg.
      pose proof (Z.log2_nonneg (- n)) as Hl.
      pose proof (Z.log2_spec (- n) ltac:(lia)) as [_ Hhi].
      pose proof (ceil_div8_covers (Z.log2 (- n) + 2)) as Hc.
      split; [lia|].
      replace (ceil_div8 (Z.log2 (- n) + 2) + 8 - 8)
        with (ceil_div8 (Z.log2 (- n) + 2)) by lia.
      rewrite Z.abs_neq by lia.
      eapply Z.lt_le_trans; [exact Hhi|].
      apply Z.pow_le_mono_r; lia.
    + apply Z.ltb_ge in Hneg.
      pose proof (Z.log2_nonneg n) as Hl.
      pose proof (Z.log2_spec n ltac:(lia)) as [_ Hhi].
      pose proof (ceil_div8_covers (Z.log2 n + 1)) as Hc.
      split; [lia|].
      replace (ceil_div8 (Z.log2 n + 1) + 8 - 8)
        with (ceil_div8 (Z.log2 n + 1)) by lia.
      rewrite Z.abs_eq by lia.
      eapply Z.lt_le_trans; [exact Hhi|].
      replace (Z.succ (Z.log2 n)) with (Z.log2 n + 1) by lia.
      apply Z.pow_le_mono_r; lia.
Qed.

Section CacheExtras.

Context {Key : Type} `{EqDec Key}.

Implicit Types (m : JsMap (Key := Key)) (c : Cache (Key := Key)) (key k : Key).

(** ** Stored entries *)

Lemma Map_delete_incl key m : incl (Map_delete key m) m.
Proof.
  induction m as [|[k e] rest IH]; cbn; [apply incl_refl|].
  destruct (eq_dec key k).
  - now apply incl_tl.
  - apply incl_cons; [now left | now apply incl_tl].
Qed.

Lemma Map_set_In key e m p : In p (Map_set key e m) -> p = (key, e) \/ In p m.
Proof.
  induction m as [|[k e'] rest IH]; cbn.
  - intros [<-|[]]. now left.
  - destruct (eq_dec key k) as [->|Hne]; cbn.
    + intros [<-|Hin]; [now left | right; now right].
    + intros [<-|Hin]; [right; now left|].
      destruct (IH Hin) as [->|Hin']; [now left | right; now right].
Qed.

Lemma Map_get_In key m e : Map_get key m = Some e -> In (key, e) m.
Proof.
  induction m as [|[k e'] rest IH]; cbn; [discriminate|].
  destruct (eq_dec key k) as [->|Hne].
  - intros [= ->]. now left.
  - intros Hg. right. now apply IH.
Qed.

Lemma Map_get_set_other key k e m :
  key <> k -> Map_get k (Map_set key e m) = Map_get k m.
Proof.
  intros Hne. induction m as [|[k' e'] rest IH]; cbn.
  - destruct (eq_dec k key); [congruence | reflexivity].
  - destruct (eq_dec key k') as [->|Hne']; cbn.
    + destruct (eq_dec k k'); [congruence | reflexivity].
    + destruct (eq_dec k k'); [reflexivity | exact IH].
Qed.

Lemma Map_delete_length key e m :
  NoDup (Map_keys m) -> Map_get key m = Some e ->
  (List.length (Map_delete key m) + 1 = List.length m)%nat.
Proof.
  unfold Map_keys.
  induction m as [|[k e'] rest IH]; cbn; [discriminate|].
  intros Hnd Hg. inversion Hnd as [|? ? Hnin Hnd']; subst.
  destruct (eq_dec key k) as [->|Hne].
  - rewrite Map_delete_absent by exact Hnin. lia.
  - cbn. rewrite <- (IH Hnd' Hg). lia.
Qed.

Lemma prune_loop_data_incl keys c : incl (data (prune_loop keys c)) (data c).
Proof.
  revert c. induction keys as [|key rest IH]; intros c; cbn [prune_loop];
    [apply incl_refl|].
  repeat break_match; try apply incl_refl.
  eapply incl_tran; [apply IH|]. cbn [data with_data with_memory_current].
  apply Map_delete_incl.
Qed.

Lemma reap_data_incl (ks : KeySet) c : incl (data (reap ks c)) (data c).
Proof.
  revert c. induction ks as [|key rest IH]; intros c; cbn [reap];
    [apply incl_refl|].
  destruct (Map_get key (data c)); [|apply IH].
  eapply incl_tran; [apply IH|]. cbn [data with_data with_memory_current].
  apply Map_delete_incl.
Qed.

Lemma expire_loop_data_incl now (t : Tree) c :
  incl (data (expire_loop now t c)) (data c).
Proof.
  revert c. induction t as [|[ts ks] rest IH]; intros c; cbn [expire_loop];
    [apply incl_refl|].
  destruct (ts <=? now); [|apply incl_refl].
  eapply incl_tran; [apply IH | apply reap_data_incl].
Qed.

Lemma Forall_incl {A} (P : A -> Prop) (l l' : list A) :
  incl l' l -> Forall P l -> Forall P l'.
Proof.
  intros Hincl Hall. rewrite Forall_forall in *. intros x Hin. apply Hall, Hincl, Hin.
Qed.

Lemma step_sizes_ok now ev c : sizes_ok c -> sizes_ok (step now ev c).
Proof.
  unfold sizes_ok. intros Hall.
  destruct ev as [key v o|key|key|key| | |id]; cbn [step].
  - rewrite set_data. rewrite Forall_forall in *. intros p Hin.
    apply Map_set_In in Hin as [->|Hin]; [reflexivity|].
    apply Hall. eapply Map_delete_incl, Hin.
  - rewrite get_data. destruct (has key now c); [|exact Hall].
    destruct (Map_get key (data c)) as [e|] eqn:Hg; [|exact Hall].
    rewrite Forall_forall in *. intros p Hin.
    apply Map_set_In in Hin as [->|Hin].
    + apply (Hall (key, e)). now apply Map_get_In.
    + apply Hall. eapply Map_delete_incl, Hin.
  - exact Hall.
  - rewrite delete_data. eapply Forall_incl; [apply Map_delete_incl | exact Hall].
  - unfold clear. destruct (timeout_id c); constructor.
  - destruct (immediates c) as [|[|key ts] q]; cbn [run_task]; [exact Hall| |].
    + unfold prune. eapply Forall_incl; [apply prune_loop_data_incl | exact Hall].
    + rewrite addTTL_data. exact Hall.
  - repeat break_match; try exact Hall.
    rewrite onKeyExpired_data.
    eapply Forall_incl; [apply expire_loop_data_incl | exact Hall].
Qed.

Lemma run_sizes_ok trace c : sizes_ok c -> sizes_ok (run trace c).
Proof.
  revert c. induction trace as [|[now ev] rest IH]; intros c Hok; cbn [run];
    [exact Hok|].
  apply IH. now apply step_sizes_ok.
Qed.

Lemma total_size_nonneg m :
  Forall (fun p => size (snd p) = measureSize (value (snd p))) m ->
  0 <= total_size m.
Proof.
  induction 1 as [|[k e] rest Hp Hall IH]; cbn in *; [lia|].
  pose proof (measureSize_nonneg (value e)). lia.
Qed.

(** X3. Accounting.  In every state the cache reaches, each stored entry
    carries the estimate of its own value, no key is stored twice, the
    memory counter is exactly the sum of the stored sizes, and so the
    counter is never negative. *)
Theorem memory_counter_is_sum_of_estimates
    (opts : CacheOptions) (trace : list (Z * Event)) :
  let c := run trace (Cache_new (Key := Key) opts) in
  Forall (fun p => size (snd p) = measureSize (value (snd p))) (data c)
  /\ NoDup (Map_keys (data c))
  /\ memory_current c = total_size (data c)
  /\ 0 <= memory_current c.
Proof.
  intros c.
  assert (Hs : sizes_ok c) by (apply run_sizes_ok; constructor).
  destruct (reachable_Inv opts trace) as ((Hnd & Hmem) & _). fold c in Hnd, Hmem.
  repeat split; try assumption.
  rewrite Hmem. now apply total_size_nonneg.
Qed.


(** ** The expiry index *)

Lemma Set_delete_as_remove key (b : KeySet) : Set_delete key b = remove eq_dec key b.
Proof.
  induction b as [|x b IH]; cbn; [reflexivity|].
  destruct (eq_dec key x); now rewrite IH.
Qed.

Lemma Set_delete_absent key (b : KeySet) : ~ In key b -> Set_delete key b = b.
Proof. intros Hn. rewrite Set_delete_as_remove. now apply notin_remove. Qed.

Lemma Set_delete_length key (b : KeySet) :
  NoDup b -> In key b -> (List.length (Set_delete key b) + 1 = List.length b)%nat.
Proof.
  induction 1 as [|x b Hnin Hnd IH]; cbn; [tauto|].
  intros [->|Hin].
  - destruct (eq_dec key key) as [_|Hne]; [|congruence].
    rewrite Set_delete_absent by exact Hnin. lia.
  - destruct (eq_dec key x) as [->|Hne]; [tauto|]. cbn. rewrite <- (IH Hin). lia.
Qed.

Lemma Set_has_delete key (b : KeySet) : Set_has key (Set_delete key b) = false.
Proof.
  unfold Set_has. destruct (in_dec eq_dec key (Set_delete key b)) as [Hin|]; [|reflexivity].
  rewrite Set_delete_as_remove in Hin. exfalso. revert Hin. apply remove_In.
Qed.

Lemma Set_has_add key (b : KeySet) : Set_has key (Set_add key b) = true.
Proof.
  unfold Set_add. destruct (Set_has key b) eqn:Hh; [exact Hh|].
  unfold Set_has. destruct (in_dec eq_dec key (b ++ [key])) as [|Hn]; [reflexivity|].
  exfalso. apply Hn, in_or_app. right. now left.
Qed.

Lemma Set_add_ok key (b : KeySet) :
  NoDup b -> Set_add key b <> [] /\ NoDup (Set_add key b).
Proof.
  intros Hnd. unfold Set_add, Set_has.
  destruct (in_dec eq_dec key b) as [Hin|Hnin].
  - split; [|exact Hnd]. intros ->. destruct Hin.
  - split; [destruct b; discriminate|].
    apply NoDup_app; [exact Hnd | repeat constructor; intros [] |].
    intros x Hx [<-|[]]. tauto.
Qed.

Lemma Set_delete_ok key (b : KeySet) :
  b <> [] -> NoDup b -> (Set_size b =? 1) = false ->
  Set_delete key b <> [] /\ NoDup (Set_delete key b).
Proof.
  intros Hne Hnd Hsz. split.
  - destruct (in_dec eq_dec key b) as [Hin|Hnin].
    + pose proof (Set_delete_length key b Hnd Hin) as Hl.
      apply Z.eqb_neq in Hsz. unfold Set_size in Hsz.
      intros Hnil. rewrite Hnil in Hl. cbn in Hl. lia.
    + now rewrite Set_delete_absent.
  - rewrite Set_delete_as_remove. now apply NoDup_remove_keys.
Qed.

Lemma Tree_get_insert ts b (t : Tree (Key := Key)) :
  Tree_get ts t = None -> Tree_get ts (Tree_insert ts b t) = Some b.
Proof.
  induction t as [|[k b'] rest IH]; cbn.
  - now rewrite Z.eqb_refl.
  - destruct (ts =? k) eqn:Heq; [discriminate|]. intros Hg.
    destruct (ts <=? k); cbn.
    + now rewrite Z.eqb_refl.
    + rewrite Heq. now apply IH.
Qed.

Lemma Tree_get_update ts f (t : Tree (Key := Key)) :
  Tree_get ts (Tree_update ts f t) = option_map f (Tree_get ts t).
Proof.
  induction t as [|[k b] rest IH]; cbn; [reflexivity|].
  destruct (ts =? k) eqn:Heq; cbn; rewrite Heq; [reflexivity | exact IH].
Qed.

Lemma Tree_get_update_other ts ts' f (t : Tree (Key := Key)) :
  ts' <> ts -> Tree_get ts' (Tree_update ts f t) = Tree_get ts' t.
Proof.
  intros Hne. induction t as [|[k b] rest IH]; cbn; [reflexivity|].
  destruct (ts =? k) eqn:Heq; cbn.
  - apply Z.eqb_eq in Heq. subst k.
    destruct (ts' =? ts) eqn:Heq'; [apply Z.eqb_eq in Heq'; congruence | reflexivity].
  - destruct (ts' =? k); [reflexivity | exact IH].
Qed.

Lemma Tree_get_insert_other ts ts' b (t : Tree (Key := Key)) :
  ts' <> ts -> Tree_get ts' (Tree_insert ts b t) = Tree_get ts' t.
Proof.
  intros Hne. induction t as [|[k b'] rest IH]; cbn.
  - destruct (ts' =? ts) eqn:Heq; [apply Z.eqb_eq in Heq; congruence | reflexivity].
  - destruct (ts <=? k); cbn.
    + destruct (ts' =? ts) eqn:Heq; [apply Z.eqb_eq in Heq; congruence | reflexivity].
    + destruct (ts' =? k); [reflexivity | exact IH].
Qed.

Lemma Tree_get_remove ts (t : Tree (Key := Key)) :
  StronglySorted Z.lt (map fst t) -> Tree_get ts (Tree_remove ts t) = None.
Proof.
  induction t as [|[k b] rest IH]; cbn; [reflexivity|].
  intros Hs. inversion Hs as [|? ? Hs' Hall]; subst.
  destruct (ts =? k) eqn:Heq; cbn.
  - apply Z.eqb_eq in Heq. subst k.
    destruct (Tree_get ts rest) as [b'|] eqn:Hg; [|reflexivity].
    apply Tree_get_In in Hg. apply (in_map fst) in Hg. cbn in Hg.
    rewrite Forall_forall in Hall. specialize (Hall _ Hg). lia.
  - rewrite Heq. now apply IH.
Qed.

Lemma Tree_insert_Forall (Q : Z * KeySet -> Prop) ts b (t : Tree (Key := Key)) :
  Q (ts, b) -> Forall Q t -> Forall Q (Tree_insert ts b t).
Proof.
  intros Hq. induction 1 as [|[k b'] rest Hp Hall IH]; cbn.
  - now repeat constructor.
  - destruct (ts <=? k); repeat constructor; assumption.
Qed.

Lemma Tree_update_Forall (Q : KeySet -> Prop) ts f (t : Tree (Key := Key)) :
  Forall (fun p => Q (snd p)) t ->
  (forall b, Tree_get ts t = Some b -> Q (f b)) ->
  Forall (fun p => Q (snd p)) (Tree_update ts f t).
Proof.
  induction 1 as [|[k b] rest Hp Hall IH]; cbn; [constructor|].
  intros Hf. destruct (ts =? k).
  - constructor; [cbn; now apply Hf | exact Hall].
  - constructor; [exact Hp | now apply IH].
Qed.

Lemma Tree_remove_Forall (Q : Z * KeySet -> Prop) ts (t : Tree (Key := Key)) :
  Forall Q t -> Forall Q (Tree_remove ts t).
Proof.
  induction 1 as [|[k b] rest Hp Hall IH]; cbn; [constructor|].
  destruct (ts =? k); [exact Hall | now constructor].
Qed.

Lemma expire_loop_tree_suffix now (t : Tree) c :
  exists n, timeout_tree (expire_loop now t c) = skipn n t.
Proof.
  revert c. induction t as [|[ts ks] rest IH]; intros c; cbn [expire_loop].
  - now exists 0%nat.
  - destruct (ts <=? now).
    + destruct (IH (reap ks c)) as [n Hn]. now exists (S n).
    + now exists 0%nat.
Qed.

Lemma Forall_skipn {A} (P : A -> Prop) n (l : list A) :
  Forall P l -> Forall P (skipn n l).
Proof.
  revert l. induction n as [|n IH]; intros [|x l] Hall; cbn; auto.
  inversion Hall; subst. now apply IH.
Qed.

Lemma get_frame key now c :
  timeout_tree (fst (get key now c)) = timeout_tree c
  /\ timers (fst (get key now c)) = timers c
  /\ timeout_id (fst (get key now c)) = timeout_id c
  /\ timeout_timestamp (fst (get key now c)) = timeout_timestamp c
  /\ immediates (fst (get key now c)) = immediates c
  /\ noPruneScheduled (fst (get key now c)) = noPruneScheduled c
  /\ memory_current (fst (get key now c)) = memory_current c.
Proof. unfold get. repeat (break_match; cbn); repeat split. Qed.

Lemma onKeyExpired_tree now c :
  timeout_tree (onKeyExpired now c) =
  timeout_tree (expire_loop now (timeout_tree c) (with_timeout_id None c)).
Proof.
  unfold onKeyExpired. cbn [timeout_tree with_timeout_id].
  break_match; rewrite ?scheduleNextTimer_tree; reflexivity.
Qed.

Lemma delete_buckets_ok key now c : buckets_ok c -> buckets_ok (delete key now c).
Proof.
  unfold buckets_ok, delete. intros Hall.
  destruct (Map_get key (data c)) as [e|]; [|exact Hall].
  cbn [timeout_tree with_data with_memory_current].
  destruct (expiresAt e) as [ts|]; [|exact Hall].
  destruct (Tree_get ts (timeout_tree c)) as [b|] eqn:Hg; [|exact Hall].
  destruct (Set_size b =? 1) eqn:Hsz.
  - break_match; rewrite ?scheduleNextTimer_tree; cbn; now apply Tree_remove_Forall.
  - cbn [timeout_tree with_timeout_tree].
    apply (Tree_update_Forall (fun b => b <> [] /\ NoDup b)); [exact Hall|].
    intros b' Hg'. rewrite Hg in Hg'. injection Hg' as <-.
    apply Tree_get_In in Hg. rewrite Forall_forall in Hall.
    destruct (Hall _ Hg) as [Hne Hnd]. now apply Set_delete_ok.
Qed.

Lemma addTTL_tree key ts now c :
  timeout_tree (addTTL key ts now c) =
  Tree_update ts (Set_add key)
    (match Tree_get ts (timeout_tree c) with
     | None => Tree_insert ts [] (timeout_tree c)
     | Some _ => timeout_tree c
     end).
Proof.
  unfold addTTL. repeat break_match; rewrite ?scheduleNextTimer_tree; reflexivity.
Qed.

Lemma addTTL_buckets_ok key ts now c : buckets_ok c -> buckets_ok (addTTL key ts now c).
Proof.
  unfold buckets_ok. intros Hall. rewrite addTTL_tree.
  destruct (Tree_get ts (timeout_tree c)) as [b|] eqn:Hg.
  - apply (Tree_update_Forall (fun b => b <> [] /\ NoDup b)); [exact Hall|].
    intros b' Hg'. rewrite Hg in Hg'. injection Hg' as <-.
    apply Tree_get_In in Hg. rewrite Forall_forall in Hall.
    destruct (Hall _ Hg) as [_ Hnd]. now apply Set_add_ok.
  - induction (timeout_tree c) as [|[k b'] rest IH]; cbn in *.
    + rewrite Z.eqb_refl. constructor; [|constructor].
      cbn. split; [discriminate | repeat constructor; intros [] ].
    + inversion Hall as [|? ? Hp Hall']; subst.
      destruct (ts =? k) eqn:Heq; [discriminate|].
      destruct (ts <=? k); cbn.
      * rewrite Z.eqb_refl. constructor; [|exact Hall].
        cbn. split; [discriminate | repeat constructor; intros [] ].
      * rewrite Heq. constructor; [exact Hp | now apply IH].
Qed.

Lemma step_buckets_ok now ev c : buckets_ok c -> buckets_ok (step now ev c).
Proof.
  intros Hok. destruct ev as [key v o|key|key|key| | |id]; cbn [step].
  - unfold buckets_ok. rewrite set_tree. now apply delete_buckets_ok.
  - unfold buckets_ok. destruct (get_frame key now c) as (-> & _). exact Hok.
  - exact Hok.
  - now apply delete_buckets_ok.
  - unfold buckets_ok, clear. destruct (timeout_id c); constructor.
  - destruct (immediates c) as [|[|key ts] q]; cbn [run_task]; [exact Hok| |].
    + unfold buckets_ok. rewrite prune_keeps_tree. exact Hok.
    + now apply addTTL_buckets_ok.
  - repeat break_match; try exact Hok.
    unfold buckets_ok. rewrite onKeyExpired_tree.
    match goal with |- context [expire_loop ?n ?t ?c'] =>
      destruct (expire_loop_tree_suffix n t c') as [k ->] end.
    apply Forall_skipn. exact Hok.
Qed.

Lemma run_buckets_ok trace c : buckets_ok c -> buckets_ok (run trace c).
Proof.
  revert c. induction trace as [|[now ev] rest IH]; intros c Hok; cbn [run];
    [exact Hok|].
  apply IH. now apply step_buckets_ok.
Qed.

(** X4. The expiry index is well formed in every state the cache reaches:
    its timestamps are strictly ascending, so each timestamp has one
    bucket, no bucket is empty, and no bucket holds a key twice. *)
Theorem expiry_index_well_formed (opts : CacheOptions) (trace : list (Z * Event)) :
  let c := run trace (Cache_new (Key := Key) opts) in
  StronglySorted Z.lt (map fst (timeout_tree c))
  /\ Forall (fun p : Z * KeySet => snd p <> [] /\ NoDup (snd p)) (timeout_tree c).
Proof.
  intros c. split.
  - apply (reachable_Inv opts trace).
  - apply (run_buckets_ok trace). constructor.
Qed.


(** ** The public operations *)

(** X5. Round trip.  In any state, right after [set(key, v, ttl)] at
    instant [t0], [get(key)] at instant [t] returns [v] when [t] is before
    [t0 + ttl] (always, when the ttl is unbounded) and nothing otherwise,
    and [has(key)] answers accordingly. *)
Theorem set_then_get (key : Key) (v : JsValue) (o : option num) (t0 t : Z) (c : Cache) :
  snd (get key t (set key v o t0 c)) =
    (if num_ltb (Fin t) (num_add (Fin t0) (ttl_arg o c)) then Some v else None)
  /\ has key t (set key v o t0 c) = num_ltb (Fin t) (num_add (Fin t0) (ttl_arg o c)).
Proof.
  unfold get, has. rewrite set_stores. cbn [expiresAt value].
  destruct (num_ltb (Fin t) (num_add (Fin t0) (ttl_arg o c))); split; reflexivity.
Qed.

Lemma Map_get_reinsert_other key k e m :
  key <> k -> Map_get k (Map_set key e (Map_delete key m)) = Map_get k m.
Proof.
  intros Hne. rewrite Map_get_set_other by exact Hne.
  now apply Map_get_delete_other.
Qed.

Lemma has_of_entry k t c c' :
  Map_get k (data c') = Map_get k (data c) ->
  has k t c' = has k t c /\ snd (get k t c') = snd (get k t c).
Proof.
  intros Hg. unfold has, get. rewrite Hg.
  destruct (Map_get k (data c)) as [e|]; [|split; reflexivity].
  destruct (num_ltb (Fin t) (expiresAt e)); split; reflexivity.
Qed.

(** X6. [set] leaves every other key alone: the entry stored under a
    different key, and what [has] and [get] answer for it at any instant,
    are the same before and after. *)
Theorem set_keeps_other_keys
    (key k : Key) (v : JsValue) (o : option num) (t0 t : Z) (c : Cache) :
  key <> k ->
  Map_get k (data (set key v o t0 c)) = Map_get k (data c)
  /\ has k t (set key v o t0 c) = has k t c
  /\ snd (get k t (set key v o t0 c)) = snd (get k t c).
Proof.
  intros Hne.
  assert (Hg : Map_get k (data (set key v o t0 c)) = Map_get k (data c)).
  { rewrite set_data. now apply Map_get_reinsert_other. }
  split; [exact Hg | now apply has_of_entry].
Qed.

(** X7. [delete] removes the key and nothing else.  In every state the
    cache reaches, after [delete(key)] the key is absent for [has] and
    [get] at every instant, every other key keeps its entry, the size goes
    down by one if the key was stored, and the counter goes down by the
    size of the removed entry. *)
Theorem delete_removes_only_the_key
    (opts : CacheOptions) (trace : list (Z * Event)) (key : Key) (now t : Z) :
  let c := run trace (Cache_new opts) in
  has key t (delete key now c) = false
  /\ snd (get key t (delete key now c)) = None
  /\ (forall k, Map_get k (data (delete key now c)) =
                if eq_dec key k then None else Map_get k (data c))
  /\ get_size (delete key now c) = get_size c - (if present c key then 1 else 0)
  /\ memory_current (delete key now c) =
       memory_current c - match Map_get key (data c) with
                          | Some e => size e
                          | None => 0
                          end.
Proof.
  intros c. destruct (reachable_Inv opts trace) as ((Hnd & _) & _). fold c in Hnd.
  assert (Habs : Map_get key (data (delete key now c)) = None)
    by (rewrite delete_data; apply Map_get_delete_same).
  repeat split.
  - unfold has. now rewrite Habs.
  - unfold get. now rewrite Habs.
  - intros k. rewrite delete_data. destruct (eq_dec key k) as [<-|Hne].
    + apply Map_get_delete_same.
    + now apply Map_get_delete_other.
  - unfold get_size, Map_size, present. rewrite delete_data.
    destruct (Map_get key (data c)) as [e|] eqn:Hg.
    + pose proof (Map_delete_length key e (data c) Hnd Hg). lia.
    + rewrite Map_delete_absent_get by exact Hg. lia.
  - rewrite delete_memory_current. destruct (Map_get key (data c)); lia.
Qed.

Lemma remove_idem key (l : list Key) :
  remove eq_dec key (remove eq_dec key l ++ [key]) = remove eq_dec key l.
Proof.
  rewrite remove_app. cbn. destruct (eq_dec key key) as [_|Hne]; [|congruence].
  rewrite app_nil_r. apply notin_remove, remove_In.
Qed.

(** X8. Last write wins.  In every state the cache reaches, a second
    [set] of the same key replaces the entry of the first: the key holds
    the new value with the new expiry, the size and the order of the keys
    are unchanged, and the counter trades the old estimate for the new. *)
Theorem set_twice_replaces
    (opts : CacheOptions) (trace : list (Z * Event)) (key : Key)
    (v1 v2 : JsValue) (o1 o2 : option num) (t1 t2 : Z) :
  let c1 := set key v1 o1 t1 (run trace (Cache_new opts)) in
  let c2 := set key v2 o2 t2 c1 in
  Map_get key (data c2) =
    Some (mkEntry (measureSize v2) v2 (num_add (Fin t2) (ttl_arg o2 c1)))
  /\ get_size c2 = get_size c1
  /\ Map_keys (data c2) = Map_keys (data c1)
  /\ memory_current c2 = memory_current c1 - measureSize v1 + measureSize v2.
Proof.
  intros c1 c2.
  assert (HI : Inv c1).
  { apply (step_Inv t1 (CallSet key v1 o1)), reachable_Inv. }
  destruct HI as ((Hnd & _) & _).
  pose proof (set_stores key v1 o1 t1 (run trace (Cache_new opts))) as Hg1.
  fold c1 in Hg1.
  repeat split.
  - apply set_stores.
  - unfold get_size, Map_size. subst c2. rewrite set_data.
    rewrite Map_set_absent by apply Map_get_delete_same.
    rewrite length_app. cbn [List.length].
    pose proof (Map_delete_length key _ (data c1) Hnd Hg1). lia.
  - subst c2. rewrite set_keys. subst c1. rewrite set_keys.
    now rewrite remove_idem.
  - subst c2. rewrite set_memory_current, delete_memory_current, Hg1. cbn [size]. lia.
Qed.

(** X9. [clear] empties the cache but not the queue.  In every state the
    cache reaches, after [clear] no entry is stored, the counter is zero,
    every key is absent, the expiry index is empty and no timer is armed;
    the work already handed to [setImmediate] and the prune flag are left
    as they were. *)
Theorem clear_resets_all_but_the_queue
    (opts : CacheOptions) (trace : list (Z * Event)) (key : Key) (t : Z) :
  let c := run trace (Cache_new opts) in
  get_size (clear c) = 0
  /\ memory_current (clear c) = 0
  /\ has key t (clear c) = false
  /\ timeout_tree (clear c) = []
  /\ timeout_timestamp (clear c) = Infinity
  /\ timers (clear c) = []
  /\ immediates (clear c) = immediates c
  /\ noPruneScheduled (clear c) = noPruneScheduled c.
Proof.
  intros c. destruct (reachable_Inv opts trace) as (_ & _ & Hm). fold c in Hm.
  assert (Htm : timers (clear c) = []).
  { unfold clear. destruct Hm as [Hnil|(id & due & Ht & Hid)].
    - destruct (timeout_id c); cbn; rewrite Hnil; reflexivity.
    - rewrite Hid. cbn. rewrite Ht. cbn. now rewrite Nat.eqb_refl. }
  unfold clear in *. destruct (timeout_id c); repeat split; exact Htm.
Qed.

(** X10. [get] only reorders.  In every state the cache reaches, [get]
    returns a value exactly when [has] is true; it leaves the size, the
    memory counter, the entry of every key, the expiry index, the timers
    and the queue as they were. *)
Theorem get_only_reorders
    (opts : CacheOptions) (trace : list (Z * Event)) (key k : Key) (now : Z) :
  let c := run trace (Cache_new opts) in
  let c' := fst (get key now c) in
  has key now c = match snd (get key now c) with
                  | Some _ => true
                  | None => false
                  end
  /\ get_size c' = get_size c
  /\ memory_current c' = memory_current c
  /\ Map_get k (data c') = Map_get k (data c)
  /\ timeout_tree c' = timeout_tree c
  /\ timers c' = timers c
  /\ immediates c' = immediates c.
Proof.
  intros c c'. destruct (reachable_Inv opts trace) as ((Hnd & _) & _). fold c in Hnd.
  destruct (get_frame key now c) as (Htree & Htm & _ & _ & Hq & _ & Hmem).
  fold c' in Htree, Htm, Hq, Hmem.
  repeat split; try assumption.
  - unfold has, get. destruct (Map_get key (data c)) as [e|]; [|reflexivity].
    destruct (num_ltb (Fin now) (expiresAt e)); reflexivity.
  - unfold get_size, Map_size. subst c'. rewrite get_data.
    destruct (has key now c); [|reflexivity].
    destruct (Map_get key (data c)) as [e|] eqn:Hg; [|reflexivity].
    rewrite Map_set_absent by apply Map_get_delete_same.
    rewrite length_app. cbn [List.length].
    pose proof (Map_delete_length key e (data c) Hnd Hg). lia.
  - subst c'. rewrite get_data.
    destruct (has key now c); [|reflexivity].
    destruct (Map_get key (data c)) as [e|] eqn:Hg; [|reflexivity].
    destruct (eq_dec key k) as [<-|Hne].
    + now rewrite Map_get_reinsert_same.
    + now apply Map_get_reinsert_other.
Qed.


(** ** Scheduling of prune passes *)

Lemma same_queue_refl c : same_queue c c.
Proof. split; reflexivity. Qed.

Lemma same_queue_trans c1 c2 c3 :
  same_queue c1 c2 -> same_queue c2 c3 -> same_queue c1 c3.
Proof. unfold same_queue. intros (-> & ->) (-> & ->). split; reflexivity. Qed.

Lemma scheduleNextTimer_queue now c : same_queue c (scheduleNextTimer now c).
Proof.
  unfold scheduleNextTimer, same_queue.
  destruct (timeout_id c); cbn; break_match; split; reflexivity.
Qed.

Lemma delete_queue key now c : same_queue c (delete key now c).
Proof.
  unfold delete.
  repeat break_match;
    try (eapply same_queue_trans; [|apply scheduleNextTimer_queue]);
    split; reflexivity.
Qed.

Lemma addTTL_queue key ts now c : same_queue c (addTTL key ts now c).
Proof.
  unfold addTTL.
  repeat break_match;
    try (eapply same_queue_trans; [|apply scheduleNextTimer_queue]);
    split; reflexivity.
Qed.

Lemma reap_queue (ks : KeySet) c : same_queue c (reap ks c).
Proof.
  revert c. induction ks as [|key rest IH]; intros c; cbn [reap];
    [apply same_queue_refl|].
  destruct (Map_get key (data c)); [|apply IH].
  eapply same_queue_trans; [|apply IH]. split; reflexivity.
Qed.

Lemma expire_loop_queue now (t : Tree) c : same_queue c (expire_loop now t c).
Proof.
  revert c. induction t as [|[ts ks] rest IH]; intros c; cbn [expire_loop];
    [split; reflexivity|].
  destruct (ts <=? now); [|split; reflexivity].
  eapply same_queue_trans; [apply reap_queue | apply IH].
Qed.

Lemma onKeyExpired_queue now c : same_queue c (onKeyExpired now c).
Proof.
  unfold onKeyExpired.
  break_match;
    try (eapply same_queue_trans; [|apply scheduleNextTimer_queue]);
    (eapply same_queue_trans; [|apply expire_loop_queue]); split; reflexivity.
Qed.

Lemma prune_loop_queue keys c : same_queue c (prune_loop keys c).
Proof.
  revert c. induction keys as [|key rest IH]; intros c; cbn [prune_loop];
    [apply same_queue_refl|].
  repeat break_match; try apply same_queue_refl.
  eapply same_queue_trans; [|apply IH]. split; reflexivity.
Qed.

Lemma prune_pending_app (q1 q2 : list (Task (Key := Key))) :
  prune_pending (q1 ++ q2) = (prune_pending q1 + prune_pending q2)%nat.
Proof.
  induction q1 as [|[|key ts] rest IH]; cbn; [reflexivity | now rewrite IH | exact IH].
Qed.

Lemma step_coalesced now ev c : coalesced c -> coalesced (step now ev c).
Proof.
  unfold coalesced. intros Hco.
  destruct ev as [key v o|key|key|key| | |id]; cbn [step].
  - destruct (delete_queue key now c) as [Hq Hf].
    unfold set, setImmediate.
    set (c1 := delete key now c) in *.
    cbn [noPruneScheduled with_data with_memory_current immediates].
    rewrite <- Hq, <- Hf in Hco.
    destruct (noPruneScheduled c1) eqn:Hflag.
    + cbn [andb].
      repeat (break_match; cbn [immediates noPruneScheduled with_immediates
                                with_noPruneScheduled with_data with_memory_current]);
        rewrite ?prune_pending_app; cbn [prune_pending]; rewrite ?Hflag; lia.
    + cbn [andb].
      repeat (break_match; cbn [immediates noPruneScheduled with_immediates
                                with_noPruneScheduled with_data with_memory_current]);
        rewrite ?prune_pending_app; cbn [prune_pending]; rewrite ?Hflag; lia.
  - destruct (get_frame key now c) as (_ & _ & _ & _ & -> & -> & _). exact Hco.
  - exact Hco.
  - destruct (delete_queue key now c) as [-> ->]. exact Hco.
  - unfold clear. destruct (timeout_id c); exact Hco.
  - destruct (immediates c) as [|[|key ts] q] eqn:Hq; cbn [run_task];
      [rewrite Hq; exact Hco| |].
    + unfold prune.
      match goal with |- context [prune_loop ?k ?c'] =>
        destruct (prune_loop_queue k c') as [-> ->] end.
      cbn [immediates noPruneScheduled with_noPruneScheduled with_immediates].
      cbn [prune_pending] in Hco. destruct (noPruneScheduled c); lia.
    + destruct (addTTL_queue key ts now (with_immediates q c)) as [-> ->].
      cbn [immediates noPruneScheduled with_immediates].
      cbn [prune_pending] in Hco. exact Hco.
  - destruct (find _ (timers c)) as [[i due]|]; [|exact Hco].
    destruct (due <=? now); [|exact Hco].
    destruct (onKeyExpired_queue now (clearTimeout id c)) as [-> ->]. exact Hco.
Qed.

Lemma run_coalesced trace c : coalesced c -> coalesced (run trace c).
Proof.
  revert c. induction trace as [|[now ev] rest IH]; intros c Hok; cbn [run];
    [exact Hok|].
  apply IH. now apply step_coalesced.
Qed.

(** X11. Prune passes are coalesced.  In every state the cache reaches,
    at most one prune pass is waiting in the queue, and one is waiting
    exactly when [#noPruneScheduled] is false. *)
Theorem at_most_one_prune_pending (opts : CacheOptions) (trace : list (Z * Event)) :
  let c := run trace (Cache_new (Key := Key) opts) in
  (prune_pending (immediates c) <= 1)%nat
  /\ prune_pending (immediates c) = (if noPruneScheduled c then 0 else 1)%nat.
Proof.
  intros c.
  assert (Hco : coalesced c) by (apply run_coalesced; reflexivity).
  split; [|exact Hco].
  unfold coalesced in Hco. destruct (noPruneScheduled c); lia.
Qed.


(** ** What a prune pass evicts *)

Lemma prune_loop_least (l : JsMap) c :
  data c = l -> NoDup (Map_keys l) -> memory_current c = total_size l ->
  exists n,
    data (prune_loop (Map_keys l) c) = skipn n l
    /\ (forall j, (j < n)%nat -> stop_test c (skipn j l) = false)
    /\ (skipn n l = [] \/ stop_test c (skipn n l) = true).
Proof.
  revert c. induction l as [|[k e] rest IH]; intros c Hl Hnd Hmem.
  - exists 0%nat. cbn. repeat split; [exact Hl | lia | now left].
  - cbn [Map_keys map fst prune_loop].
    assert (Htest : num_ltb (Fin (Map_size (data c))) (maxItems c)
                    && num_ltb (Fin (memory_current c)) (memory_max c)
                    = stop_test c ((k, e) :: rest)).
    { unfold stop_test. now rewrite Hl, Hmem. }
    rewrite Htest.
    destruct (stop_test c ((k, e) :: rest)) eqn:Hstop.
    + exists 0%nat. cbn [skipn]. repeat split; [exact Hl | lia | now right].
    + rewrite Hl. cbn [Map_get Map_delete].
      destruct (eq_dec k k) as [_|Hne]; [|congruence].
      unfold Map_keys in Hnd. cbn in Hnd.
      inversion Hnd as [|? ? Hnin Hnd']; subst.
      rewrite Map_delete_absent by exact Hnin.
      destruct (IH (with_data rest (with_memory_current (memory_current c - size e) c))
                   eq_refl Hnd') as (n & Hd & Hleast & Hend).
      { cbn [memory_current with_data with_memory_current].
        rewrite Hmem. cbn [total_size]. lia. }
      exists (S n). cbn [skipn]. repeat split.
      * exact Hd.
      * intros [|j] Hj; [exact Hstop|]. cbn [skipn]. apply (Hleast j). lia.
      * exact Hend.
Qed.

(** X12. What a prune pass does.  In every state the cache reaches, a
    prune pass evicts the [n] oldest entries for the least [n] after which
    the size is strictly below [maxItems] and the counter strictly below
    the byte ceiling, or all of them when no such [n] exists; it stops
    there, with the counter still the sum of the sizes left. *)
Theorem prune_evicts_least_prefix (opts : CacheOptions) (trace : list (Z * Event)) :
  let c := run trace (Cache_new (Key := Key) opts) in
  exists n,
    data (prune c) = skipn n (data c)
    /\ forallb (fun j => negb (stop_test c (skipn j (data c)))) (seq 0 n) = true
    /\ (data (prune c) = [] \/ stop_test c (data (prune c)) = true)
    /\ memory_current (prune c) = total_size (data (prune c)).
Proof.
  intros c. pose proof (reachable_Inv opts trace) as HI. fold c in HI.
  pose proof (prune_Inv c HI) as ((_ & Hmem') & _).
  destruct HI as ((Hnd & Hmem) & _).
  destruct (prune_loop_least (data c) (with_noPruneScheduled true c)
                             eq_refl Hnd Hmem) as (n & Hd & Hleast & Hend).
  exists n. unfold prune. cbn [data with_noPruneScheduled] in *.
  repeat split.
  - exact Hd.
  - apply forallb_forall. intros j Hj. apply in_seq in Hj.
    assert (Hj' : stop_test c (skipn j (data c)) = false) by (apply Hleast; lia).
    now rewrite Hj'.
  - rewrite Hd. exact Hend.
  - exact Hmem'.
Qed.

(** ** What the timer callback removes *)

Lemma reap_other (ks : KeySet) k c :
  ~ In k ks -> Map_get k (data (reap ks c)) = Map_get k (data c).
Proof.
  revert c. induction ks as [|key rest IH]; intros c Hn; cbn [reap]; [reflexivity|].
  assert (Hne : key <> k) by (intros ->; apply Hn; now left).
  assert (Hn' : ~ In k rest) by (intros Hin; apply Hn; now right).
  destruct (Map_get key (data c)); rewrite IH by exact Hn'; [|reflexivity].
  cbn [data with_data with_memory_current]. now apply Map_get_delete_other.
Qed.

Lemma expire_loop_other now (t : Tree) k c :
  forallb (fun p : Z * KeySet => negb ((fst p <=? now) && Set_has k (snd p))) t = true ->
  Map_get k (data (expire_loop now t c)) = Map_get k (data c).
Proof.
  revert c. induction t as [|[ts ks] rest IH]; intros c Hall; cbn [expire_loop];
    [reflexivity|].
  cbn [forallb fst snd] in Hall. apply andb_true_iff in Hall as [Hhd Htl].
  destruct (ts <=? now); [|reflexivity].
  rewrite IH by exact Htl. apply reap_other.
  cbn in Hhd. unfold Set_has in Hhd.
  destruct (in_dec eq_dec k ks); [discriminate | assumption].
Qed.

(** X13. The timer callback spares what is not due.  In any state, when
    a timer fires at [now], a key that is in no bucket with a timestamp at
    or before [now] keeps its entry. *)
Theorem timer_spares_keys_not_due (key : Key) (id : nat) (now : Z) (c : Cache) :
  in_no_due_bucket key now c = true ->
  Map_get key (data (step now (FireTimer id) c)) = Map_get key (data c).
Proof.
  intros Hsafe. cbn [step].
  destruct (find _ (timers c)) as [[i due]|]; [|reflexivity].
  destruct (due <=? now); [|reflexivity].
  rewrite onKeyExpired_data.
  rewrite expire_loop_other by exact Hsafe. reflexivity.
Qed.

Lemma expire_loop_no_due now (t : Tree) c :
  StronglySorted Z.lt (map fst t) ->
  Forall (fun p : Z * KeySet => now < fst p) (timeout_tree (expire_loop now t c)).
Proof.
  revert c. induction t as [|[ts ks] rest IH]; intros c Hs; cbn [expire_loop].
  - constructor.
  - inversion Hs as [|? ? Hs' Hall]; subst.
    destruct (ts <=? now) eqn:Hle; [now apply IH|].
    apply Z.leb_gt in Hle. cbn [timeout_tree with_timeout_tree].
    constructor; [exact Hle|].
    rewrite Forall_forall in *. intros p Hin.
    specialize (Hall (fst p) (in_map fst _ _ Hin)). lia.
Qed.

(** X14. The timer callback consumes every due bucket.  In every state
    the cache reaches, when the armed timer fires at [now], every bucket
    left in the expiry index has a timestamp after [now]. *)
Theorem timer_leaves_no_due_bucket
    (opts : CacheOptions) (trace : list (Z * Event)) (id : nat) (due now : Z) :
  let c := run trace (Cache_new (Key := Key) opts) in
  In (id, due) (timers c) -> due <= now ->
  no_bucket_due now (step now (FireTimer id) c).
Proof.
  intros c Hin Hdue.
  destruct (reachable_Inv opts trace) as (_ & Ht & Hm). fold c in Ht, Hm.
  unfold no_bucket_due. cbn [step].
  rewrite (armed_handle_found id due c Hm Hin).
  destruct (due <=? now) eqn:Hl; [|apply Z.leb_gt in Hl; lia].
  rewrite onKeyExpired_tree. now apply expire_loop_no_due.
Qed.

(** ** Registration in the expiry index *)

Lemma Set_has_add_other key k (b : KeySet) :
  key <> k -> Set_has k (Set_add key b) = Set_has k b.
Proof.
  intros Hne. unfold Set_add. destruct (Set_has key b); [reflexivity|].
  unfold Set_has.
  destruct (in_dec eq_dec k (b ++ [key])) as [Hin|Hn];
    destruct (in_dec eq_dec k b) as [Hin'|Hn']; try reflexivity.
  - apply in_app_or in Hin as [Hin|[->|[]]]; tauto.
  - exfalso. apply Hn, in_or_app. now left.
Qed.

(** X15. Registration.  In any state, after [#addTTL(key, ts)] the key is
    in the bucket of [ts]; membership of every other key, and of [key] in
    every other bucket, is as before; the entries and the memory counter
    are untouched. *)
Theorem addTTL_registers (key k : Key) (ts ts' now : Z) (c : Cache) :
  in_bucket k ts' (addTTL key ts now c) =
    (if eq_dec key k
     then if ts =? ts' then true else in_bucket k ts' c
     else in_bucket k ts' c)
  /\ data (addTTL key ts now c) = data c
  /\ memory_current (addTTL key ts now c) = memory_current c.
Proof.
  unfold in_bucket. rewrite addTTL_tree, addTTL_data, addTTL_memory_current.
  split; [|split; reflexivity].
  destruct (ts =? ts') eqn:Hts.
  - apply Z.eqb_eq in Hts. subst ts'. rewrite Tree_get_update.
    destruct (eq_dec key k) as [<-|Hne].
    + destruct (Tree_get ts (timeout_tree c)) as [b|] eqn:Hg.
      * rewrite Hg. cbn [option_map]. apply Set_has_add.
      * rewrite Tree_get_insert by exact Hg. cbn [option_map]. apply Set_has_add.
    + destruct (Tree_get ts (timeout_tree c)) as [b|] eqn:Hg.
      * rewrite Hg. cbn [option_map]. now apply Set_has_add_other.
      * rewrite Tree_get_insert by exact Hg. cbn [option_map].
        rewrite Set_has_add_other by exact Hne. reflexivity.
  - apply Z.eqb_neq in Hts.
    assert (Hsame : Tree_get ts'
                      (Tree_update ts (Set_add key)
                         match Tree_get ts (timeout_tree c) with
                         | Some _ => timeout_tree c
                         | None => Tree_insert ts [] (timeout_tree c)
                         end) = Tree_get ts' (timeout_tree c)).
    { rewrite Tree_get_update_other by congruence.
      destruct (Tree_get ts (timeout_tree c)); [reflexivity|].
      apply Tree_get_insert_other. congruence. }
    rewrite Hsame. destruct (eq_dec key k); reflexivity.
Qed.

(** X16. What [delete] does to the expiry index.  In every state the
    cache reaches, deleting a stored key whose expiry is the finite [ts]
    leaves the index alone when [ts] has no bucket, removes the whole
    bucket of [ts] when that bucket holds exactly one key, and otherwise
    takes the key out of the bucket; in each case the key is not in the
    bucket of [ts] afterwards. *)
Theorem delete_unregisters
    (opts : CacheOptions) (trace : list (Z * Event)) (key : Key) (now : Z)
    (e : CacheEntry) (ts : Z) :
  let c := run trace (Cache_new opts) in
  Map_get key (data c) = Some e -> expiresAt e = Fin ts ->
  in_bucket key ts (delete key now c) = false
  /\ match Tree_get ts (timeout_tree c) with
     | None => timeout_tree (delete key now c) = timeout_tree c
     | Some b =>
         if Set_size b =? 1
         then Tree_get ts (timeout_tree (delete key now c)) = None
         else Tree_get ts (timeout_tree (delete key now c)) = Some (Set_delete key b)
     end.
Proof.
  intros c Hg He.
  destruct (reachable_Inv opts trace) as (_ & Hs & _). fold c in Hs.
  unfold tree_sorted in Hs.
  assert (Htree : timeout_tree (delete key now c) =
                  match Tree_get ts (timeout_tree c) with
                  | None => timeout_tree c
                  | Some b =>
                      if Set_size b =? 1
                      then Tree_remove ts (timeout_tree c)
                      else Tree_update ts (Set_delete key) (timeout_tree c)
                  end).
  { unfold delete. rewrite Hg, He.
    cbn [timeout_tree with_data with_memory_current].
    destruct (Tree_get ts (timeout_tree c)) as [b|]; [|reflexivity].
    destruct (Set_size b =? 1); [|reflexivity].
    break_match; rewrite ?scheduleNextTimer_tree; reflexivity. }
  unfold in_bucket. rewrite Htree.
  destruct (Tree_get ts (timeout_tree c)) as [b|] eqn:Hb.
  - destruct (Set_size b =? 1).
    + rewrite Tree_get_remove by exact Hs. split; reflexivity.
    + rewrite Tree_get_update, Hb. cbn. split; [apply Set_has_delete | reflexivity].
  - rewrite Hb. split; reflexivity.
Qed.

(** X17. The configuration is fixed at construction.  In every state the
    cache reaches, [#ttl] and [#maxItems] are the values given to the
    constructor ([Infinity] when left out) and the byte ceiling is
    [maxMemoryInMb * 1024 ** 2]. *)
Theorem configuration_never_changes (opts : CacheOptions) (trace : list (Z * Event)) :
  let c := run trace (Cache_new (Key := Key) opts) in
  ttl c = default (opt_ttl opts)
  /\ maxItems c = default (opt_maxItems opts)
  /\ memory_max c = mb_to_bytes (default (opt_maxMemoryInMb opts)).
Proof.
  intros c. destruct (run_config trace (Cache_new (Key := Key) opts)) as (Hi & Ht & Hm).
  fold c in Hi, Ht, Hm. rewrite Hi, Ht, Hm. repeat split.
Qed.


(** ** When the timer is not armed again *)

Lemma reap_timestamp (ks : KeySet) c :
  timeout_timestamp (reap ks c) = timeout_timestamp c.
Proof.
  revert c. induction ks as [|key rest IH]; intros c; cbn [reap]; [reflexivity|].
  destruct (Map_get key (data c)); now rewrite IH.
Qed.

Lemma expire_loop_timestamp now (t : Tree) c :
  timeout_timestamp (expire_loop now t c) = timeout_timestamp c.
Proof.
  revert c. induction t as [|[ts ks] rest IH]; intros c; cbn [expire_loop];
    [reflexivity|].
  destruct (ts <=? now); [|reflexivity].
  now rewrite IH, reap_timestamp.
Qed.

(** X18. A drained index leaves its timestamp behind.  In every state
    the cache reaches, when the armed timer fires and the expiry index is
    empty afterwards, [#timeout.timestamp] keeps the value [T] it had and
    no timer is armed; a key registered after that with an expiry at or
    after [T] is filed in its bucket, but [#addTTL] does not arm a timer
    for it. *)
Theorem timer_not_rearmed_after_drain
    (opts : CacheOptions) (trace : list (Z * Event))
    (id : nat) (due now T : Z) (key : Key) (ts now' : Z) :
  let c := run trace (Cache_new opts) in
  let c1 := step now (FireTimer id) c in
  let c2 := addTTL key ts now' c1 in
  In (id, due) (timers c) -> due <= now ->
  timeout_timestamp c = Fin T -> timeout_tree c1 = [] -> T <= ts ->
  timeout_timestamp c1 = Fin T
  /\ timers c1 = []
  /\ in_bucket key ts c2 = true
  /\ timers c2 = [].
Proof.
  intros c c1 c2 Hin Hdue HT Hempty Hle.
  destruct (reachable_Inv opts trace) as (_ & _ & Hm). fold c in Hm.
  pose proof (armed_handle_found id due c Hm Hin) as Hf.
  assert (Hc1 : c1 = onKeyExpired now (clearTimeout id c)).
  { subst c1. cbn [step]. rewrite Hf.
    destruct (due <=? now) eqn:Hl; [reflexivity | apply Z.leb_gt in Hl; lia]. }
  set (c0 := expire_loop now
                (timeout_tree (with_timeout_id None (clearTimeout id c)))
                (with_timeout_id None (clearTimeout id c))).
  assert (Hc0 : c1 = c0).
  { rewrite Hc1 in *. unfold onKeyExpired in *. fold c0 in Hempty |- *.
    destruct (Tree_begin (timeout_tree c0)) as [p|] eqn:Hb; [|reflexivity].
    rewrite scheduleNextTimer_tree in Hempty. rewrite Hempty in Hb. discriminate. }
  assert (Hts1 : timeout_timestamp c1 = Fin T).
  { rewrite Hc0. subst c0. rewrite expire_loop_timestamp. exact HT. }
  assert (Htm1 : timers c1 = []).
  { rewrite Hc0. subst c0.
    match goal with |- timers (expire_loop ?n ?t ?c') = _ =>
      destruct (expire_loop_frame n t c') as (-> & _) end.
    cbn [timers with_timeout_id]. eapply fired_handle_cleared; eassumption. }
  repeat split; try assumption.
  - unfold in_bucket. subst c2. rewrite addTTL_tree, Tree_get_update, Hempty.
    cbn [Tree_get Tree_insert option_map]. rewrite Z.eqb_refl.
    cbn [option_map]. apply Set_has_add.
  - subst c2. unfold addTTL. rewrite Hempty. cbn [Tree_get].
    cbn [timeout_timestamp timeout_tree with_timeout_tree].
    rewrite Hts1. cbn [num_ltb].
    destruct (ts <? T) eqn:Hl; [apply Z.ltb_lt in Hl; lia|].
    exact Htm1.
Qed.


(** ** Staying within the limits *)

Lemma num_ltb_asym (a b : num) : num_ltb a b = true -> num_ltb b a = false.
Proof.
  destruct a as [x|], b as [y|]; cbn; try congruence.
  intros Hlt. apply Z.ltb_lt in Hlt. apply Z.ltb_ge. lia.
Qed.

Lemma num_ltb_nonneg_zero (a : num) : num_nonneg a = true -> num_ltb a (Fin 0) = false.
Proof.
  destruct a as [x|]; cbn; [|reflexivity].
  intros Hle. apply Z.leb_le in Hle. apply Z.ltb_ge. lia.
Qed.

Lemma num_ltb_mono (a : num) (x y : Z) :
  y <= x -> num_ltb a (Fin x) = false -> num_ltb a (Fin y) = false.
Proof.
  destruct a as [z|]; cbn; [|reflexivity].
  intros Hle Hlt. apply Z.ltb_ge in Hlt. apply Z.ltb_ge. lia.
Qed.

Lemma over_limits_mono c c' :
  same_config c c' ->
  Map_size (data c') <= Map_size (data c) ->
  memory_current c' <= memory_current c ->
  over_limits c = false -> over_limits c' = false.
Proof.
  intros (Hi & _ & Hm) Hsz Hmem. unfold over_limits. rewrite Hi, Hm.
  intros Hov. apply orb_false_iff in Hov as [H1 H2]. apply orb_false_iff.
  split; eapply num_ltb_mono; eassumption.
Qed.

Lemma over_limits_empty c :
  num_nonneg (maxItems c) = true -> num_nonneg (memory_max c) = true ->
  data c = [] -> memory_current c = 0 -> over_limits c = false.
Proof.
  intros Hi Hm Hd Hmem. unfold over_limits. rewrite Hd, Hmem. cbn [Map_size List.length].
  apply orb_false_iff. split; now apply num_ltb_nonneg_zero.
Qed.

Lemma Map_delete_size_le key m : Map_size (Map_delete key m) <= Map_size m.
Proof.
  unfold Map_size. induction m as [|[k e] rest IH]; cbn [Map_delete List.length]; [lia|].
  destruct (eq_dec key k); cbn [List.length]; lia.
Qed.

Lemma entry_size_nonneg key e c :
  sizes_ok c -> Map_get key (data c) = Some e -> 0 <= size e.
Proof.
  intros Hall Hg. apply Map_get_In in Hg. unfold sizes_ok in Hall.
  rewrite Forall_forall in Hall. specialize (Hall _ Hg). cbn in Hall.
  rewrite Hall. apply measureSize_nonneg.
Qed.

Lemma reap_shrinks (ks : KeySet) c :
  sizes_ok c ->
  Map_size (data (reap ks c)) <= Map_size (data c)
  /\ memory_current (reap ks c) <= memory_current c
  /\ sizes_ok (reap ks c).
Proof.
  revert c. induction ks as [|key rest IH]; intros c Hok; cbn [reap].
  - repeat split; [lia | lia | exact Hok].
  - destruct (Map_get key (data c)) as [e|] eqn:Hg; [|now apply IH].
    pose proof (entry_size_nonneg key e c Hok Hg) as Hnn.
    match goal with |- context [reap rest ?c'] =>
      destruct (IH c') as (Hsz & Hmem & Hok') end.
    { unfold sizes_ok. cbn [data with_data with_memory_current].
      eapply Forall_incl; [apply Map_delete_incl | exact Hok]. }
    cbn [data memory_current with_data with_memory_current] in Hsz, Hmem.
    pose proof (Map_delete_size_le key (data c)).
    repeat split; [lia | lia | exact Hok'].
Qed.

Lemma expire_loop_shrinks now (t : Tree) c :
  sizes_ok c ->
  Map_size (data (expire_loop now t c)) <= Map_size (data c)
  /\ memory_current (expire_loop now t c) <= memory_current c.
Proof.
  revert c. induction t as [|[ts ks] rest IH]; intros c Hok; cbn [expire_loop].
  - split; cbn; lia.
  - destruct (ts <=? now); [|split; cbn; lia].
    destruct (reap_shrinks ks c Hok) as (Hsz & Hmem & Hok').
    destruct (IH (reap ks c) Hok') as (Hsz' & Hmem'). lia.
Qed.

Lemma onKeyExpired_memory_current now c :
  memory_current (onKeyExpired now c) =
  memory_current (expire_loop now (timeout_tree c) (with_timeout_id None c)).
Proof.
  unfold onKeyExpired. cbn [timeout_tree with_timeout_id].
  break_match; rewrite ?scheduleNextTimer_memory_current; reflexivity.
Qed.

Lemma set_flag_over key v o now c :
  noPruneScheduled (set key v o now c) = true -> over_limits (set key v o now c) = false.
Proof.
  unfold set, setImmediate, over_limits.
  set (c1 := delete key now c).
  cbn [noPruneScheduled maxItems memory_max data memory_current
       with_data with_memory_current].
  destruct (noPruneScheduled c1) eqn:Hflag; cbn [andb].
  - destruct (num_ltb (maxItems c1) _ || num_ltb (memory_max c1) _) eqn:Hov;
      destruct (num_add (Fin now) (ttl_arg o c));
      cbn [noPruneScheduled maxItems memory_max data memory_current immediates
           with_data with_memory_current with_immediates with_noPruneScheduled];
      intros Hf; (discriminate Hf || exact Hov).
  - destruct (num_add (Fin now) (ttl_arg o c));
      cbn [noPruneScheduled maxItems memory_max data memory_current immediates
           with_data with_memory_current with_immediates with_noPruneScheduled];
      intros Hf; congruence.
Qed.

Lemma get_size_same key now c :
  NoDup (Map_keys (data c)) ->
  Map_size (data (fst (get key now c))) = Map_size (data c).
Proof.
  intros Hnd. unfold Map_size. rewrite get_data.
  destruct (has key now c); [|reflexivity].
  destruct (Map_get key (data c)) as [e|] eqn:Hg; [|reflexivity].
  rewrite Map_set_absent by apply Map_get_delete_same.
  rewrite length_app. cbn [List.length].
  pose proof (Map_delete_length key e (data c) Hnd Hg). lia.
Qed.

Lemma step_within_limits now ev c :
  Inv c -> sizes_ok c ->
  num_nonneg (maxItems c) = true -> num_nonneg (memory_max c) = true ->
  (noPruneScheduled c = true -> over_limits c = false) ->
  noPruneScheduled (step now ev c) = true -> over_limits (step now ev c) = false.
Proof.
  intros HI Hok Hni Hnm Hlim.
  pose proof (step_config now ev c) as Hcfg.
  pose proof (step_Inv now ev c HI) as HI'.
  destruct HI as ((Hnd & Hmem) & Ht & Hm).
  destruct ev as [key v o|key|key|key| | |id]; cbn [step] in *.
  - apply set_flag_over.
  - destruct (get_frame key now c) as (_ & _ & _ & _ & _ & Hf & Hmc).
    rewrite Hf. intros Hflag.
    eapply over_limits_mono; [exact Hcfg | | | now apply Hlim].
    + rewrite get_size_same by exact Hnd. lia.
    + lia.
  - exact Hlim.
  - destruct (delete_queue key now c) as [_ Hf]. rewrite Hf. intros Hflag.
    eapply over_limits_mono; [exact Hcfg | | | now apply Hlim].
    + rewrite delete_data. apply Map_delete_size_le.
    + rewrite delete_memory_current.
      destruct (Map_get key (data c)) as [e|] eqn:Hg; [|lia].
      pose proof (entry_size_nonneg key e c Hok Hg). lia.
  - intros _. destruct Hcfg as (Hi & _ & Hmx).
    apply over_limits_empty; rewrite ?Hi, ?Hmx; try assumption;
      unfold clear; destruct (timeout_id c); reflexivity.
  - destruct (immediates c) as [|[|key ts] q] eqn:Hq; cbn [run_task] in *;
      [exact Hlim| |].
    + intros _. destruct Hcfg as (Hi & _ & Hmx).
      destruct HI' as ((_ & Hmem') & _).
      destruct (prune_loop_least (data c)
                  (with_noPruneScheduled true (with_immediates q c))
                  eq_refl Hnd Hmem) as (n & Hd & _ & Hend).
      unfold prune in *.
      cbn [data with_noPruneScheduled with_immediates] in Hd, Hmem', Hi, Hmx |- *.
      destruct Hend as [Hnil|Hstop].
      * apply over_limits_empty; rewrite ?Hi, ?Hmx; try assumption.
        -- now rewrite Hd.
        -- rewrite Hmem', Hd, Hnil. reflexivity.
      * unfold over_limits. rewrite Hi, Hmx, Hmem', Hd.
        unfold stop_test in Hstop.
        cbn [maxItems memory_max with_noPruneScheduled with_immediates] in Hstop.
        apply andb_true_iff in Hstop as [H1 H2].
        apply orb_false_iff. split; now apply num_ltb_asym.
    + destruct (addTTL_queue key ts now (with_immediates q c)) as [_ Hf].
      rewrite Hf. cbn [noPruneScheduled with_immediates]. intros Hflag.
      eapply over_limits_mono; [exact Hcfg | | | now apply Hlim].
      * rewrite addTTL_data. cbn [data with_immediates]. lia.
      * rewrite addTTL_memory_current. cbn [memory_current with_immediates]. lia.
  - destruct (find _ (timers c)) as [[i due]|]; [|exact Hlim].
    destruct (due <=? now); [|exact Hlim].
    destruct (onKeyExpired_queue now (clearTimeout id c)) as [_ Hf].
    rewrite Hf. cbn [noPruneScheduled clearTimeout with_timers]. intros Hflag.
    match type of Hcfg with same_config _ (onKeyExpired ?n ?c0) =>
      destruct (expire_loop_shrinks n (timeout_tree c0) (with_timeout_id None c0))
        as (Hsz & Hmc) end.
    { exact Hok. }
    eapply over_limits_mono; [exact Hcfg | | | now apply Hlim].
    + rewrite onKeyExpired_data. exact Hsz.
    + rewrite onKeyExpired_memory_current. exact Hmc.
Qed.

Lemma run_within_limits trace c :
  Inv c -> sizes_ok c ->
  num_nonneg (maxItems c) = true -> num_nonneg (memory_max c) = true ->
  (noPruneScheduled c = true -> over_limits c = false) ->
  noPruneScheduled (run trace c) = true -> over_limits (run trace c) = false.
Proof.
  revert c. induction trace as [|[now ev] rest IH]; intros c HI Hok Hni Hnm Hlim;
    cbn [run]; [exact Hlim|].
  destruct (step_config now ev c) as (Hi & _ & Hm).
  apply IH.
  - now apply step_Inv.
  - now apply step_sizes_ok.
  - now rewrite Hi.
  - now rewrite Hm.
  - now apply step_within_limits.
Qed.

(** X19. Bounded overshoot.  For a configuration without negative limits,
    in every state the cache reaches in which no prune pass is waiting
    ([#noPruneScheduled] is true), the size is at most [maxItems] and the
    memory counter at most the byte ceiling: whenever a [set] takes the
    cache over a limit, a prune pass is already waiting. *)
Theorem within_limits_unless_prune_pending
    (opts : CacheOptions) (trace : list (Z * Event)) :
  let c := run trace (Cache_new (Key := Key) opts) in
  nonneg_config opts = true ->
  noPruneScheduled c = true ->
  over_limits c = false.
Proof.
  intros c Hcfg.
  unfold nonneg_config in Hcfg.
  apply andb_true_iff in Hcfg as [Hcfg Hmx]. apply andb_true_iff in Hcfg as [_ Hit].
  assert (Hmx' : num_nonneg (mb_to_bytes (default (opt_maxMemoryInMb opts))) = true).
  { destruct (default (opt_maxMemoryInMb opts)) as [mb|]; cbn in *; [|reflexivity].
    apply Z.leb_le in Hmx. apply Z.leb_le. unfold toMegabytes. lia. }
  subst c. apply run_within_limits.
  - apply Cache_new_Inv.
  - constructor.
  - exact Hit.
  - exact Hmx'.
  - intros _. apply over_limits_empty; [exact Hit | exact Hmx' | reflexivity..].
Qed.


(** ** Arming the timer *)

(** X20. What [#scheduleNextTimer] arms.  In every state the cache
    reaches, after [#scheduleNextTimer] at instant [now]: when the expiry
    index is empty, or its smallest timestamp is 0, no timer is armed and
    [#timeout.timestamp] is [Infinity]; otherwise exactly one timer is
    armed, it is the one recorded in [#timeout.id], the timestamp recorded
    is the smallest of the index, and the timer is due after the delay the
    runtime makes of [max(timestamp - now, 0)]: at the timestamp itself
    when that is 1 to [2 ** 31 - 1] milliseconds ahead, and one
    millisecond from [now] when the timestamp is already reached or more
    than [2 ** 31 - 1] milliseconds ahead; it is never due at or before
    [now]. *)
Theorem scheduleNextTimer_arms_for_smallest
    (opts : CacheOptions) (trace : list (Z * Event)) (now : Z) :
  let c := run trace (Cache_new (Key := Key) opts) in
  let c' := scheduleNextTimer now c in
  match timeout_tree c with
  | [] => timers c' = [] /\ timeout_timestamp c' = Infinity
  | (ts, _) :: rest =>
      Forall (fun p : Z * KeySet => ts < fst p) rest
      /\ if ts =? 0
         then timers c' = [] /\ timeout_timestamp c' = Infinity
         else timers c' = [(next_handle c, now + timer_delay (Z.max (ts - now) 0))]
              /\ timeout_id c' = Some (next_handle c)
              /\ timeout_timestamp c' = Fin ts
              /\ now < now + timer_delay (Z.max (ts - now) 0)
              /\ now + timer_delay (Z.max (ts - now) 0) =
                   (if (1 <=? ts - now) && (ts - now <=? TIMEOUT_MAX)
                    then ts
                    else now + 1)
  end.
Proof.
  intros c c'.
  destruct (reachable_Inv opts trace) as (_ & Hs & Hm). fold c in Hs, Hm.
  unfold tree_sorted in Hs. subst c'. unfold scheduleNextTimer.
  assert (Hclr : timers (match timeout_id c with
                         | Some id => clearTimeout id c
                         | None => c
                         end) = []).
  { destruct Hm as [Hnil|(id & due & Ht & Hid)].
    - destruct (timeout_id c); cbn; rewrite ?Hnil; reflexivity.
    - rewrite Hid. cbn. rewrite Ht. cbn. now rewrite Nat.eqb_refl. }
  assert (Hsame : timeout_tree (match timeout_id c with
                                | Some id => clearTimeout id c
                                | None => c
                                end) = timeout_tree c
                  /\ next_handle (match timeout_id c with
                                  | Some id => clearTimeout id c
                                  | None => c
                                  end) = next_handle c).
  { destruct (timeout_id c); split; reflexivity. }
  destruct Hsame as [Htree Hnh].
  destruct (match timeout_id c with Some id => clearTimeout id c | None => c end)
    as [mi tt d mc mm tid tree tst np im tm nh].
  cbn in Hclr, Htree, Hnh. subst tm tree nh.
  unfold begin_key_or_Infinity, Tree_begin.
  cbn [timeout_tree with_timeout_timestamp hd_error].
  destruct (timeout_tree c) as [|[ts ks] rest];
    cbn -[timer_delay Z.max Z.add Z.sub Z.leb Z.lt TIMEOUT_MAX].
  - split; reflexivity.
  - split.
    + inversion Hs as [|? ? _ Hall]; subst.
      rewrite Forall_forall in *. intros p Hin.
      apply Hall. now apply in_map.
    + destruct (ts =? 0);
        cbn -[timer_delay Z.max Z.add Z.sub Z.leb Z.lt TIMEOUT_MAX];
        [split; reflexivity|].
      assert (Hdelay : timer_delay (Z.max (ts - now) 0) =
                       if (1 <=? ts - now) && (ts - now <=? TIMEOUT_MAX)
                       then ts - now else 1).
      { unfold timer_delay.
        destruct (1 <=? ts - now) eqn:H1.
        - apply Z.leb_le in H1. rewrite Z.max_l by lia.
          apply Z.leb_le in H1. now rewrite H1.
        - apply Z.leb_gt in H1.
          destruct (1 <=? Z.max (ts - now) 0) eqn:H2; [|reflexivity].
          apply Z.leb_le in H2. lia. }
      repeat split.
      * rewrite Hdelay. unfold TIMEOUT_MAX.
        destruct ((1 <=? ts - now) && (ts - now <=? 2 ^ 31 - 1)) eqn:Hin; [|lia].
        apply andb_true_iff in Hin as [H1 _]. apply Z.leb_le in H1. lia.
      * rewrite Hdelay.
        destruct ((1 <=? ts - now) && (ts - now <=? TIMEOUT_MAX)); lia.
Qed.

(** ** Recency and eviction *)

Lemma run_calls_recency trace c log :
  Map_keys (data c) = recency log ->
  Map_keys (data (run (set_get_calls trace) c)) =
  recency (log ++ touches (set_get_calls trace) c).
Proof.
  revert c log. induction trace as [|[now ev] rest IH]; intros c log Hkeys.
  - cbn. now rewrite app_nil_r.
  - unfold set_get_calls in *.
    destruct ev as [key v o|key|key|key| | |id];
      cbn [filter is_set_or_get snd]; try (now apply IH);
      cbn [run touches]; rewrite app_assoc; apply IH; cbn [step touched].
    + rewrite set_keys, Hkeys. symmetry. apply recency_touch.
    + rewrite get_keys. destruct (has key now c).
      * rewrite Hkeys. symmetry. apply recency_touch.
      * now rewrite app_nil_r.
Qed.

(** C3. LRU order.  (1) For every sequence of [set], [get] and [has]
    calls on a new cache, the keys of the entry map, in iteration order,
    are exactly the recency order of the touches: each key that was set
    once, ordered by its last touch, oldest first (a touch is a [set], or
    a [get] that returned a value).  (2) Along every run, with deletes,
    prune passes and expiries in between, the keys are that recency order
    restricted to the keys still stored.  (3) A [set] puts its key at the
    newest place and keeps the others in order; (4) so does a [get] that
    returns a value, and a [get] that returns nothing changes no place.
    (5) A prune pass evicts a prefix of that order, the [n] least recently
    touched keys, oldest first, where [n] is the number of evictions at
    which the loop of [#prune] stops: its stop test fails after every
    smaller number of evictions, and holds after [n] unless everything was
    evicted. *)
Theorem lru_recency_order (opts : CacheOptions) (trace : list (Z * Event))
    (key : Key) (v : JsValue) (o : option num) (now : Z) :
  let c0 := Cache_new opts in
  let c := run trace c0 in
  Map_keys (data (run (set_get_calls trace) c0)) =
    recency (touches (set_get_calls trace) c0)
  /\ Map_keys (data c) = filter (present c) (recency (touches trace c0))
  /\ Map_keys (data (set key v o now c)) =
       remove eq_dec key (Map_keys (data c)) ++ [key]
  /\ Map_keys (data (fst (get key now c))) =
       (if has key now c
        then remove eq_dec key (Map_keys (data c)) ++ [key]
        else Map_keys (data c))
  /\ exists n,
       Map_keys (data c) = firstn n (Map_keys (data c)) ++ Map_keys (data (prune c))
       /\ data (prune c) = skipn n (data c)
       /\ forallb (fun j => negb (stop_test c (skipn j (data c)))) (seq 0 n) = true
       /\ (data (prune c) = [] \/ stop_test c (data (prune c)) = true).
Proof.
  intros c0 c. split; [|split; [|split; [|split]]].
  - apply (run_calls_recency trace c0 []). reflexivity.
  - apply in_recency_order_present.
    apply (run_recency trace c0 []).
    exists (fun _ => true). reflexivity.
  - apply set_keys.
  - apply get_keys.
  - destruct (reachable_Inv opts trace) as ((Hnd & Hmem) & _).
    fold c0 in Hnd, Hmem. fold c in Hnd, Hmem.
    destruct (prune_loop_least (data c) (with_noPruneScheduled true c)
                               eq_refl Hnd Hmem) as (n & Hd & Hleast & Hend).
    unfold prune. cbn [data with_noPruneScheduled] in *.
    exists n. split; [|split; [|split]].
    + rewrite Hd, Map_keys_skipn. symmetry. apply firstn_skipn.
    + exact Hd.
    + apply forallb_forall. intros j Hj. apply in_seq in Hj.
      assert (Hj' : stop_test c (skipn j (data c)) = false) by (apply Hleast; lia).
      now rewrite Hj'.
    + rewrite Hd. exact Hend.
Qed.

End CacheExtras.

(** ** The further properties on concrete caches *)

(** [set(b, ...)] on a cache holding [a], [b] and [c] leaves [a] as it
    was. *)
Lemma set_keeps_other_keys_witness :
  Map_get "a"%string
    (data (set "b"%string (VString "new") None 7
             (run (three_sets (VNumber 1) (VBoolean true) VUndefined 0 1 2)
                  (Cache_new no_options))))
  = Some (mkEntry 8 (VNumber 1) Infinity).
Proof.
  destruct (set_keeps_other_keys "b"%string "a"%string (VString "new") None 7 0
              (run (three_sets (VNumber 1) (VBoolean true) VUndefined 0 1 2)
                   (Cache_new no_options))) as (Hentry & _).
  - discriminate.
  - rewrite Hentry. vm_compute. reflexivity.
Defined.

(** With buckets at 10 and 30, the timer firing at 10 spares the key of
    the bucket at 30. *)
Lemma timer_spares_keys_not_due_witness :
  Map_get "m"%string
    (data (step 10 (FireTimer 0) (run two_buckets (Cache_new no_options))))
  = Some (mkEntry 4 (VBoolean true) (Fin 30)).
Proof.
  rewrite (timer_spares_keys_not_due "m"%string 0%nat 10
             (run two_buckets (Cache_new no_options))).
  - vm_compute. reflexivity.
  - vm_compute. reflexivity.
Defined.

(** With buckets at 10 and 30, after the timer has fired at 10 only the
    bucket at 30 is left. *)
Lemma timer_leaves_no_due_bucket_witness :
  no_bucket_due 10 (step 10 (FireTimer 0) (run two_buckets (Cache_new no_options))).
Proof.
  apply (timer_leaves_no_due_bucket no_options two_buckets 0%nat 10 10).
  - vm_compute. left. reflexivity.
  - lia.
Defined.

(** [k] shares the bucket at 10 with [j]: deleting [k] takes it out of the
    bucket. *)
Lemma delete_unregisters_witness :
  in_bucket "k"%string 10
    (delete "k"%string 5 (run two_buckets (Cache_new no_options))) = false.
Proof.
  destruct (delete_unregisters no_options two_buckets "k"%string 5
              (mkEntry 8 (VNumber 1) (Fin 10)) 10) as (Hout & _).
  - vm_compute. reflexivity.
  - reflexivity.
  - exact Hout.
Defined.

(** The only bucket, at 10, is consumed when the timer fires at 10; a key
    registered afterwards for 20 gets no timer. *)
Lemma timer_not_rearmed_after_drain_witness :
  timers (addTTL "j"%string 20 10
            (step 10 (FireTimer 0)
               (run (set_with_ttl_registered (VNumber 1)) (Cache_new no_options))))
  = [].
Proof.
  destruct (timer_not_rearmed_after_drain
              no_options (set_with_ttl_registered (VNumber 1))
              0%nat 10 10 10 "j"%string 20 10) as (_ & _ & _ & Hnone).
  - vm_compute. left. reflexivity.
  - lia.
  - vm_compute. reflexivity.
  - vm_compute. reflexivity.
  - lia.
  - exact Hnone.
Defined.

(** Three entries under [{ maxItems: 3, maxMemoryInMb: 1 }]: no prune pass
    is waiting and the cache is within its limits. *)
Lemma within_limits_unless_prune_pending_witness :
  over_limits (run (three_sets (VNumber 1) (VBoolean true) VUndefined 0 1 2)
                   (Cache_new three_items_one_mb)) = false.
Proof.
  apply (within_limits_unless_prune_pending three_items_one_mb
           (three_sets (VNumber 1) (VBoolean true) VUndefined 0 1 2)).
  - vm_compute. reflexivity.
  - vm_compute. reflexivity.
Defined.
